(** * zero-gtm workers: the job dispatcher and the enrichment handlers

    A shallow embedding of [workers/worker.py], [workers/find_emails.py] and
    [workers/find_decision_makers.py].

    - Python dicts are finite maps ([gmap string _]); a database table is the
      list of its rows in the order the store returns them.
    - A Python exception is a value of [exn]; code that may raise returns
      [exn + A] and threads the store and the sequence of observable calls
      (the [world]) explicitly.
    - Everything the process cannot decide itself (whether a store call or a
      sleep is interrupted, what an HTTP request answers, in which order the
      thread pool completes its tasks) is an explicit argument. *)

From stdpp Require Import base option list sorting strings pretty gmap fin_maps.
From Stdlib Require Import ZArith Lia Permutation Ascii.

Open Scope string_scope.
Open Scope list_scope.

(** ** Python values *)

(** The scalar and list values that occur as column values, counters and
    payload entries. *)
Inductive fval :=
| FNull
| FBool (b : bool)
| FNum (n : Z)
| FStr (s : string)
| FList (l : list string).

(** Python truthiness, as used by [if x:] and [x or y]. *)
Definition truthy (v : fval) : bool :=
  match v with
  | FNull => false
  | FBool b => b
  | FNum n => negb (n =? 0)%Z
  | FStr s => negb (String.eqb s "")
  | FList l => match l with [] => false | _ => true end
  end.

(** [d.get(k)] followed by a truth test: a missing key gives [None]. *)
Definition truthy_opt (o : option fval) : bool :=
  match o with Some v => truthy v | None => false end.

(** [a or b] on two [dict.get] results. *)
Definition py_or (a b : option fval) : option fval :=
  if truthy_opt a then a else b.

(** Exceptions: [Exception] stands for every subclass of Python's [Exception]
    and carries [str(e)]; [KeyboardInterrupt] is the interrupt signal, which
    [except Exception] does not catch. *)
Inductive exn :=
| Exception (msg : string)
| KeyboardInterrupt.

(** ** The bulk_jobs table *)

Inductive status := pending | running | done | failed.

Definition status_eqb (a b : status) : bool :=
  match a, b with
  | pending, pending | running, running | done, done | failed, failed => true
  | _, _ => false
  end.

(** The job configuration: every key is optional. *)
Record job_config := JobConfig {
  max_leads : option nat;
  include_existing : option bool;
  validated_only : option bool
}.

Record job := Job {
  job_id : string;
  job_type : string;
  job_status : status;
  job_config_of : job_config;
  job_campaign_id : string;
  job_progress : gmap string fval;
  job_started_at : option Z;
  job_result : option (gmap string fval);
  job_error : option string
}.

(** ** The leads table *)

Record lead := Lead {
  lead_id : string;
  lead_fields : gmap string fval;
  lead_enrichment_status : option (gmap string fval)
}.

(** A partial update of a lead: the plain columns and, apart from them, the
    ["enrichment_status"] entry. *)
Record updates := Updates {
  upd_fields : gmap string fval;
  upd_status : option (gmap string fval)
}.

(** [if updates:] *)
Definition updates_truthy (u : updates) : bool :=
  negb (bool_decide (upd_fields u = ∅)) || bool_decide (is_Some (upd_status u)).

Record db := Db {
  bulk_jobs : list job;
  leads : list lead;
  api_keys : gmap string string
}.

(** ** Observable calls *)

Inductive log_level := DEBUG | INFO | WARNING | ERROR.

Inductive event :=
| Log (level : log_level) (message : string)
| Sleep (seconds : Z)
| RecoverCall
| ClaimCall
| MarkFailedCall (id : string) (error : string)
| Construct (id : string)
| ProgressCall (id : string) (processed total : nat) (extra : gmap string fval)
| CompleteCall (id : string) (payload : gmap string fval)
| FailCall (id : string) (message : string)
| LeadUpdateCall (id : string) (u : updates).

Record world := World {
  store : db;
  trace : list event
}.

(** ** Computations that change the world and may raise *)

Definition M (A : Type) : Type := world -> world * (exn + A).

Definition ret {A} (a : A) : M A := fun w => (w, inr a).

Definition raise {A} (e : exn) : M A := fun w => (w, inl e).

Definition bind {A B} (c : M A) (k : A -> M B) : M B :=
  fun w => match c w with
           | (w', inr a) => k a w'
           | (w', inl e) => (w', inl e)
           end.

Notation "x <- c ;; k" := (bind c (fun x => k))
  (at level 100, c at next level, right associativity).
Notation "c ;;; k" := (bind c (fun _ => k))
  (at level 100, right associativity).

(** [try: c except Exception as e: h (str e)] *)
Definition try_except {A} (c : M A) (h : string -> M A) : M A :=
  fun w => match c w with
           | (w', inl (Exception msg)) => h msg w'
           | r => r
           end.

(** [try: c except KeyboardInterrupt: ... except Exception as e: ...], with
    both clauses in [h]. *)
Definition try_catch {A} (c : M A) (h : exn -> M A) : M A :=
  fun w => match c w with
           | (w', inl e) => h e w'
           | r => r
           end.

Definition emit (e : event) : M unit :=
  fun w => (World (store w) (trace w ++ [e]), inr tt).

Definition get_store : M db := fun w => (w, inr (store w)).

Definition put_store (d : db) : M unit :=
  fun w => (World d (trace w), inr tt).

(** A call that the environment may make raise before it takes effect. *)
Definition faulty (fault : option exn) : M unit :=
  match fault with
  | Some e => raise e
  | None => ret tt
  end.

(** [logger.<level>(message)] *)
Definition log (l : log_level) (m : string) : M unit := emit (Log l m).

(** [time.sleep(seconds)]: a negative length is a [ValueError]; the sleep is
    where an interrupt signal usually arrives. *)
Definition time_sleep (seconds : Z) (interrupted : bool) : M unit :=
  emit (Sleep seconds) ;;;
  if (seconds <? 0)%Z then raise (Exception "sleep length must be non-negative")
  else if interrupted then raise KeyboardInterrupt
  else ret tt.

(** ** Updates of the bulk_jobs table *)

Definition set_job (j : job) (s : status) (p : gmap string fval)
    (st : option Z) (r : option (gmap string fval)) (e : option string) : job :=
  Job (job_id j) (job_type j) s (job_config_of j) (job_campaign_id j) p st r e.

(** [update(patch).<filter>]: the rows the filter selects are patched, the
    others are left as they are. *)
Definition update_where (sel : job -> bool) (patch : job -> job)
    (jobs : list job) : list job :=
  map (fun j => if sel j then patch j else j) jobs.

Definition with_jobs (d : db) (jobs : list job) : db :=
  Db jobs (leads d) (api_keys d).

Definition with_leads (d : db) (ls : list lead) : db :=
  Db (bulk_jobs d) ls (api_keys d).

(** The patch [{"status": "pending", "started_at": None, "progress": {}}]. *)
Definition reset_patch (j : job) : job :=
  set_job j pending ∅ None (job_result j) (job_error j).

(** The patch [{"status": "failed", "error": message}]. *)
Definition failed_patch (message : string) (j : job) : job :=
  set_job j failed (job_progress j) (job_started_at j) (job_result j) (Some message).

Definition is_running (j : job) : bool := status_eqb (job_status j) running.

Definition has_id (id : string) (j : job) : bool := String.eqb (job_id j) id.

(** Modelled from the spec: the stored procedure [claim_next_bulk_job] is not
    part of the sources.  It returns at most one job, atomically moved from
    [pending] to [running] with [started_at] set; here the first pending row. *)
Fixpoint claim_next_pending (now : Z) (jobs : list job) : option job * list job :=
  match jobs with
  | [] => (None, [])
  | j :: rest =>
      if status_eqb (job_status j) pending then
        let j' := set_job j running (job_progress j) (Some now)
                          (job_result j) (job_error j) in
        (Some j', j' :: rest)
      else
        let r := claim_next_pending now rest in
        (fst r, j :: snd r)
  end.

(** What [result.data] of the claim call looks like on the wire. *)
Inductive rpc_data :=
| DataNone
| DataList (rows : list job)
| DataObj (row : job).

Definition data_truthy (d : rpc_data) : bool :=
  match d with
  | DataNone => false
  | DataList [] => false
  | DataList _ => true
  | DataObj _ => true
  end.

(** [db.from_("bulk_jobs").update(patch).eq("id", id).execute()] *)
Definition update_job (id : string) (patch : job -> job) : M unit :=
  d <- get_store ;;
  put_store (with_jobs d (update_where (has_id id) patch (bulk_jobs d))).

(** ** Strings the way Python handles them *)

(** [str(x)] for the values above (a list element is quoted as it is, without
    escapes). *)
Definition py_str (v : fval) : string :=
  match v with
  | FNull => "None"
  | FBool true => "True"
  | FBool false => "False"
  | FNum n => pretty n
  | FStr s => s
  | FList l => "[" +:+ String.concat ", " (map (fun s => "'" +:+ s +:+ "'") l) +:+ "]"
  end.

(** [type(x).__name__] *)
Definition py_type_name (v : fval) : string :=
  match v with
  | FNull => "NoneType"
  | FBool _ => "bool"
  | FNum _ => "int"
  | FStr _ => "str"
  | FList _ => "list"
  end.

Definition py_str_bool (b : bool) : string := py_str (FBool b).

(** [str(x)] where [x] may be [None]. *)
Definition py_str_opt (o : option string) : string :=
  match o with Some s => s | None => "None" end.

(** [s.lower()] on ASCII letters. *)
Definition ascii_lower (c : ascii) : ascii :=
  let n := nat_of_ascii c in
  if (65 <=? n)%nat && (n <=? 90)%nat then ascii_of_nat (n + 32) else c.

Fixpoint lower (s : string) : string :=
  match s with
  | EmptyString => EmptyString
  | String c rest => String (ascii_lower c) (lower rest)
  end.

(** [needle in hay] on strings. *)
Fixpoint contains (needle hay : string) : bool :=
  String.prefix needle hay
  || match hay with
     | EmptyString => false
     | String _ rest => contains needle rest
     end.

(** [s.startswith(p)] *)
Definition startswith (s p : string) : bool := String.prefix p s.

(** ** The execution context *)

(** The source of the base class [SupabaseWorkerBase] is not available; its
    operations are taken from the specification of the execution context. *)
Module Base.

(** Modelled from the spec: [update_progress(processed, total, **extra)] of
    the missing base class writes the current progress snapshot; the
    progress map is overwritten wholesale on each report. *)
Definition progress_snapshot (processed total : nat) (extra : gmap string fval)
  : gmap string fval :=
  <["processed" := FNum (Z.of_nat processed)]>
    (<["total" := FNum (Z.of_nat total)]> extra).

Definition update_progress (self : job) (processed total : nat)
    (extra : gmap string fval) : M unit :=
  emit (ProgressCall (job_id self) processed total extra) ;;;
  update_job (job_id self) (fun j =>
    set_job j (job_status j) (progress_snapshot processed total extra)
            (job_started_at j) (job_result j) (job_error j)).

(** Modelled from the spec: [complete(result_payload)] of the missing base
    class sets the job to [done] with the given result. *)
Definition complete (self : job) (payload : gmap string fval) : M unit :=
  emit (CompleteCall (job_id self) payload) ;;;
  update_job (job_id self) (fun j =>
    set_job j done (job_progress j) (job_started_at j) (Some payload) (job_error j)).

(** Modelled from the spec: [fail(message)] of the missing base class sets
    the job to [failed], whatever its status was, with the message as error. *)
Definition fail (self : job) (message : string) : M unit :=
  emit (FailCall (job_id self) message) ;;;
  update_job (job_id self) (failed_patch message).

(** Modelled from the spec: [get_api_key(service_name)] of the missing base
    class is a keyed lookup that returns a secret or an absent value. *)
Definition get_api_key (name : string) : M (option string) :=
  d <- get_store ;; ret (api_keys d !! name).

(** Modelled from the spec: the merge of the record-update operation of the
    missing base class.  Plain columns are overwritten by the update; the
    [enrichment_status] sub-map is merged key-wise, new keys added or
    overwritten and the other keys kept. *)
Definition merge_status (new : option (gmap string fval))
    (old : option (gmap string fval)) : option (gmap string fval) :=
  match new with
  | Some u => Some (u ∪ default ∅ old)
  | None => old
  end.

Definition apply_updates (u : updates) (l : lead) : lead :=
  Lead (lead_id l) (upd_fields u ∪ lead_fields l)
       (merge_status (upd_status u) (lead_enrichment_status l)).

Definition update_lead_rows (id : string) (u : updates) (ls : list lead)
  : list lead :=
  map (fun l => if String.eqb (lead_id l) id then apply_updates u l else l) ls.

(** Modelled from the spec: [update_lead(record_id, partial_update)] of the
    missing base class applies the partial update to the lead with that id. *)
Definition update_lead (id : string) (u : updates) : M unit :=
  emit (LeadUpdateCall id u) ;;;
  d <- get_store ;;
  put_store (with_leads d (update_lead_rows id u (leads d))).

End Base.

(** [if not api_key:] *)
Definition key_missing (k : option string) : bool :=
  match k with
  | Some s => String.eqb s ""
  | None => true
  end.

(** ** The store query both handlers build *)

Definition is_null (o : option fval) : bool :=
  match o with
  | None | Some FNull => true
  | _ => false
  end.

(** [.eq("campaign_id", campaign)] *)
Definition in_campaign (campaign : string) (l : lead) : bool :=
  match lead_fields l !! "campaign_id" with
  | Some (FStr c) => String.eqb c campaign
  | _ => false
  end.

(** [.contains("enrichment_status", {"website_validated": True})] *)
Definition website_validated (l : lead) : bool :=
  match lead_enrichment_status l with
  | Some m => match m !! "website_validated" with
              | Some (FBool true) => true
              | _ => false
              end
  | None => false
  end.

(** The filters of the query, all evaluated by the store. *)
Definition store_filter (campaign : string) (column : string)
    (include_existing validated_only : bool) (l : lead) : bool :=
  in_campaign campaign l
  && (include_existing || is_null (lead_fields l !! column))
  && (negb validated_only || website_validated l).

(** [query.execute()]: the store applies the filters, then the limit. *)
Definition select_leads (campaign : string) (column : string)
    (limit : nat) (include_existing validated_only : bool)
    (table : list lead) : list lead :=
  take limit (List.filter (store_filter campaign column
                                        include_existing validated_only) table).

(** [l.get("company_website") or l.get("domain")] as a condition. *)
Definition has_website (l : lead) : bool :=
  truthy_opt (py_or (lead_fields l !! "company_website") (lead_fields l !! "domain")).

(** [lead.get("company_website") or lead.get("domain", "")] *)
Definition website_of (l : lead) : fval :=
  let domain := default (FStr "") (lead_fields l !! "domain") in
  match lead_fields l !! "company_website" with
  | Some v => if truthy v then v else domain
  | None => domain
  end.

(** ** Worker: find_emails *)

Module FindEmails.

Definition API_URL : string :=
  "https://api.openwebninja.com/website-contacts-scraper/scrape-contacts".

Definition CONCURRENT_REQUESTS : nat := 5.

(** An element of the [emails] and [phone_numbers] lists of an answer:
    a dict (with or without a ["value"]), a string, or something else. *)
Inductive entry :=
| EntryDict (value : option string)
| EntryStr (s : string)
| EntryOther.

(** An element of the [social_media] list. *)
Inductive social :=
| SocialDict (platform url value : option string)
| SocialOther.

Inductive socials :=
| SocialList (l : list social)
| SocialMap (items : list (string * string))
| SocialsOther.

(** The first result of an answer of the contacts API. *)
Record contacts := Contacts {
  c_emails : option (list entry);
  c_phone_numbers : option (list entry);
  c_phones : option (list entry);
  c_social_media : option socials;
  c_socials : option socials;
  c_other_keys : bool
}.

Definition present {A} (o : option A) : bool :=
  match o with Some _ => true | None => false end.

(** [if contacts:] an empty dict is false. *)
Definition contacts_truthy (c : contacts) : bool :=
  present (c_emails c) || present (c_phone_numbers c) || present (c_phones c)
  || present (c_social_media c) || present (c_socials c) || c_other_keys c.

(** The decoded body [{"status": ..., "data": [...]}]. *)
Record api_body := ApiBody {
  api_status : option string;
  api_data : list contacts
}.

(** What [requests.get] meets: an exception (connection error, timeout) or
    a response with a status code and, when it decodes, a body. *)
Inductive http_outcome :=
| RequestError (msg : string)
| Response (status_code : Z) (body : option api_body).

(** A submitted task with the lead it was submitted for. *)
Record future := Future {
  fut_lead : lead;
  fut_result : exn + option contacts
}.

(** What the run of the handler meets outside the process. *)
Record env := Env {
  fetch_fault : option exn;
  requests_get : string -> http_outcome;
  as_completed : list future -> list future
}.

(** [_scrape_contacts]: every exception of the request is caught and turned
    into [None]; [website.startswith] is outside the [try]. *)
Definition _scrape_contacts (e : env) (api_key : string) (website : fval)
  : exn + option contacts :=
  match website with
  | FStr website =>
      let website :=
        if startswith website "http" then website else "https://" +:+ website in
      match requests_get e website with
      | RequestError _ => inr None
      | Response code body =>
          if (400 <=? code)%Z && (code <? 600)%Z then inr None
          else match body with
               | None => inr None
               | Some data =>
                   match api_status data, api_data data with
                   | Some "OK", c :: _ => inr (Some c)
                   | _, _ => inr None
                   end
               end
      end
  | v => inl (Exception ("'" +:+ py_type_name v
                         +:+ "' object has no attribute 'startswith'"))
  end.

(** The values of a list of entries, as the two loops collect them. *)
Fixpoint entry_values (l : list entry) : list string :=
  match l with
  | [] => []
  | EntryDict v :: rest => default "" v :: entry_values rest
  | EntryStr s :: rest => s :: entry_values rest
  | EntryOther :: rest => entry_values rest
  end.

Definition put_values (single plural : string) (l : list entry)
    (u : gmap string fval) : gmap string fval :=
  match entry_values l with
  | [] => u
  | v :: vs => <[plural := FList (v :: vs)]> (<[single := FStr v]> u)
  end.

Definition put_social (s : social) (u : gmap string fval) : gmap string fval :=
  match s with
  | SocialDict platform url value =>
      let platform := lower (default "" platform) in
      let url := match url with Some x => x | None => default "" value end in
      if contains "facebook" platform then <["social_facebook" := FStr url]> u
      else if contains "instagram" platform then <["social_instagram" := FStr url]> u
      else if contains "linkedin" platform then <["social_linkedin" := FStr url]> u
      else if contains "twitter" platform || contains "x.com" url
           then <["social_twitter" := FStr url]> u
      else u
  | SocialOther => u
  end.

Definition social_keys : list string :=
  ["social_facebook"; "social_instagram"; "social_linkedin"; "social_twitter"].

Definition put_social_item (item : string * string) (u : gmap string fval)
  : gmap string fval :=
  let key := "social_" +:+ lower (fst item) in
  if existsb (String.eqb key) social_keys then <[key := FStr (snd item)]> u else u.

Definition map_fields (c : contacts) : gmap string fval :=
  let u := ∅ in
  let u := put_values "email" "emails" (default [] (c_emails c)) u in
  let phones := match c_phone_numbers c with
                | Some p => p
                | None => default [] (c_phones c)
                end in
  let u := put_values "phone" "phones" phones u in
  let socials := match c_social_media c with
                 | Some s => s
                 | None => default (SocialList []) (c_socials c)
                 end in
  match socials with
  | SocialList l => fold_left (fun u s => put_social s u) l u
  | SocialMap items => fold_left (fun u i => put_social_item i u) items u
  | SocialsOther => u
  end.

(** [_map_contacts]: the mapped columns and, when there are any, the outcome
    of this stage. *)
Definition _map_contacts (c : contacts) : updates :=
  let u := map_fields c in
  if bool_decide (u = ∅) then Updates u None
  else Updates u (Some {["find_emails" := FStr "done"]}).

(** The tasks handed to the pool, in submission order. *)
Definition submit_all (e : env) (api_key : string) (batch : list lead)
  : list future :=
  map (fun l => Future l (_scrape_contacts e api_key (website_of l)))
      (List.filter (fun l => truthy (website_of l)) batch).

(** The body of the [try] for one completed task, and its [except]. *)
Definition enrich_one (f : future) (enriched : nat) : M nat :=
  try_except
    (match fut_result f with
     | inl e => raise e
     | inr None => ret enriched
     | inr (Some c) =>
         if contacts_truthy c then
           let u := _map_contacts c in
           if updates_truthy u then
             Base.update_lead (lead_id (fut_lead f)) u ;;; ret (S enriched)
           else ret enriched
         else ret enriched
     end)
    (fun msg =>
       let name := default (FStr "?") (lead_fields (fut_lead f) !! "company_name") in
       log WARNING ("Error enriching " +:+ py_str name +:+ ": " +:+ msg) ;;;
       ret enriched).

Definition enriched_counter (enriched : nat) : gmap string fval :=
  {["enriched" := FNum (Z.of_nat enriched)]}.

(** [for future in as_completed(futures): ...] *)
Fixpoint harvest (self : job) (total : nat) (completed : list future)
    (processed enriched : nat) : M (nat * nat) :=
  match completed with
  | [] => ret (processed, enriched)
  | f :: rest =>
      let processed := S processed in
      enriched <- enrich_one f enriched ;;
      (if (processed mod 10 =? 0)%nat
       then Base.update_progress self processed total (enriched_counter enriched)
       else ret tt) ;;;
      harvest self total rest processed enriched
  end.

Definition max_leads_of (self : job) : nat :=
  default 100%nat (max_leads (job_config_of self)).
Definition include_existing_of (self : job) : bool :=
  default false (include_existing (job_config_of self)).
Definition validated_only_of (self : job) : bool :=
  default true (validated_only (job_config_of self)).

(** The rows the query of the handler returns. *)
Definition fetch (self : job) (d : db) : list lead :=
  select_leads (job_campaign_id self) "email" (max_leads_of self)
               (include_existing_of self) (validated_only_of self) (leads d).

Definition run (e : env) (self : job) : M unit :=
  let validated_only := validated_only_of self in
  let include_existing := include_existing_of self in
  api_key <- Base.get_api_key "openwebninja" ;;
  if key_missing api_key then
    Base.fail self "OpenWeb Ninja API key not configured"
  else
    d <- get_store ;;
    faulty (fetch_fault e) ;;;
    let fetched := fetch self d in
    log INFO ("Fetched " +:+ pretty (length fetched) +:+ " leads (validated_only="
              +:+ py_str_bool validated_only +:+ ", include_existing="
              +:+ py_str_bool include_existing +:+ ")") ;;;
    let batch := List.filter has_website fetched in
    match batch with
    | [] =>
        let msg :=
          if validated_only
          then "No validated leads with websites found. Run clean & validate first."
          else "No leads with websites found" in
        Base.complete self (<["processed" := FNum 0]> {["message" := FStr msg]})
    | _ =>
        let total := length batch in
        log INFO ("Processing " +:+ pretty total +:+ " leads for email enrichment") ;;;
        Base.update_progress self 0 total ∅ ;;;
        let futures := submit_all e (default "" api_key) batch in
        r <- harvest self total (as_completed e futures) 0 0 ;;
        let processed := fst r in
        let enriched := snd r in
        Base.update_progress self processed total (enriched_counter enriched) ;;;
        Base.complete self
          (<["processed" := FNum (Z.of_nat processed)]>
             (<["enriched" := FNum (Z.of_nat enriched)]>
                {["total" := FNum (Z.of_nat total)]}))
    end.

End FindEmails.

(** ** Worker: find_decision_makers *)

Module FindDecisionMakers.

(** What the run of the handler meets outside the process.  The crawl of a
    website and the extraction by the language model are out of reach of
    the embedding: [_get_base_url] and [_find_from_website] are given by
    the environment, the second with the exception it may let escape. *)
Record env := Env {
  fetch_fault : option exn;
  _get_base_url : string -> string;
  _find_from_website : string -> string -> exn + option (gmap string fval)
}.

Definition max_leads_of (self : job) : nat :=
  default 100%nat (max_leads (job_config_of self)).
Definition include_existing_of (self : job) : bool :=
  default false (include_existing (job_config_of self)).
Definition validated_only_of (self : job) : bool :=
  default true (validated_only (job_config_of self)).

Definition fetch (self : job) (d : db) : list lead :=
  select_leads (job_campaign_id self) "decision_maker_name" (max_leads_of self)
               (include_existing_of self) (validated_only_of self) (leads d).

(** [{**(lead.get("enrichment_status") or {}), "find_decision_makers": tag}] *)
Definition stage_status (l : lead) (tag : string) : gmap string fval :=
  <["find_decision_makers" := FStr tag]> (default ∅ (lead_enrichment_status l)).

Definition found_counter (found : nat) : gmap string fval :=
  {["found" := FNum (Z.of_nat found)]}.

(** [if dm_info:] *)
Definition dm_truthy (o : option (gmap string fval)) : bool :=
  match o with
  | Some m => negb (bool_decide (m = ∅))
  | None => false
  end.

(** The body of the loop for one lead; the result is the new [found]. *)
Definition process_lead (e : env) (openai_key : string) (l : lead)
    (found : nat) : M nat :=
  match website_of l with
  | FStr website =>
      let website :=
        if startswith website "http" then website else "https://" +:+ website in
      let base_url := _get_base_url e website in
      match _find_from_website e base_url openai_key with
      | inl ex => raise ex
      | inr dm_info =>
          if dm_truthy dm_info then
            let info := default ∅ dm_info in
            Base.update_lead (lead_id l)
              (Updates (delete "enrichment_status" info)
                       (Some (stage_status l "done"))) ;;;
            let name := default (FStr "?") (lead_fields l !! "company_name") in
            log INFO ("  Found: "
                      +:+ py_str (default FNull (info !! "decision_maker_name"))
                      +:+ " at " +:+ py_str name) ;;;
            ret (S found)
          else
            Base.update_lead (lead_id l)
              (Updates ∅ (Some (stage_status l "not_found"))) ;;;
            ret found
      end
  | v => raise (Exception ("'" +:+ py_type_name v
                           +:+ "' object has no attribute 'startswith'"))
  end.

(** [for lead in leads: ...] *)
Fixpoint process_all (e : env) (openai_key : string) (self : job) (total : nat)
    (batch : list lead) (processed found : nat) : M (nat * nat) :=
  match batch with
  | [] => ret (processed, found)
  | l :: rest =>
      let processed := S processed in
      found <- process_lead e openai_key l found ;;
      (if (processed mod 5 =? 0)%nat
       then Base.update_progress self processed total (found_counter found)
       else ret tt) ;;;
      process_all e openai_key self total rest processed found
  end.

Definition run (e : env) (self : job) : M unit :=
  let validated_only := validated_only_of self in
  let include_existing := include_existing_of self in
  openai_key <- Base.get_api_key "openai" ;;
  if key_missing openai_key then
    Base.fail self "OpenAI API key not configured"
  else
    d <- get_store ;;
    faulty (fetch_fault e) ;;;
    let fetched := fetch self d in
    log INFO ("Fetched " +:+ pretty (length fetched) +:+ " leads (validated_only="
              +:+ py_str_bool validated_only +:+ ", include_existing="
              +:+ py_str_bool include_existing +:+ ")") ;;;
    let batch := List.filter has_website fetched in
    match batch with
    | [] =>
        let msg :=
          if validated_only
          then "No validated leads found. Run clean & validate first."
          else "No leads need decision maker enrichment" in
        Base.complete self (<["processed" := FNum 0]> {["message" := FStr msg]})
    | _ =>
        let total := length batch in
        log INFO ("Processing " +:+ pretty total
                  +:+ " leads for decision maker enrichment") ;;;
        Base.update_progress self 0 total ∅ ;;;
        r <- process_all e (default "" openai_key) self total batch 0 0 ;;
        let processed := fst r in
        let found := snd r in
        Base.update_progress self processed total (found_counter found) ;;;
        Base.complete self
          (<["processed" := FNum (Z.of_nat processed)]>
             (<["found" := FNum (Z.of_nat found)]>
                {["total" := FNum (Z.of_nat total)]}))
    end.

End FindDecisionMakers.

(** ** The handlers whose sources are not available *)

(** A call of a handler on its execution context. *)
Inductive ctx_op :=
| OpProgress (processed total : nat) (extra : gmap string fval)
| OpComplete (payload : gmap string fval)
| OpFail (message : string)
| OpUpdateLead (id : string) (u : updates).

Definition perform (self : job) (op : ctx_op) : M unit :=
  match op with
  | OpProgress p t extra => Base.update_progress self p t extra
  | OpComplete payload => Base.complete self payload
  | OpFail message => Base.fail self message
  | OpUpdateLead id u => Base.update_lead id u
  end.

(** A handler acts on the store through its execution context only: a run is
    a sequence of such calls, after which it returns or raises. *)
Fixpoint replay (self : job) (ops : list ctx_op) (outcome : option exn) : M unit :=
  match ops with
  | [] => faulty outcome
  | op :: rest => perform self op ;;; replay self rest outcome
  end.

(** ** The dispatcher: worker.py *)

Inductive handler_class :=
| ScrapeGoogleMapsWorker
| FindEmailsWorker
| FindDecisionMakersWorker
| AnymailFindEmailsWorker
| CleanLeadsWorker.

(** The registry, in the order of the source. *)
Definition JOB_HANDLERS : list (string * handler_class) :=
  [ ("scrape_maps", ScrapeGoogleMapsWorker);
    ("find_emails", FindEmailsWorker);
    ("find_decision_makers", FindDecisionMakersWorker);
    ("anymail_emails", AnymailFindEmailsWorker);
    ("clean_leads", CleanLeadsWorker) ].

(** [JOB_HANDLERS.get(job_type)] *)
Fixpoint registry_get (registry : list (string * handler_class))
    (job_type : string) : option handler_class :=
  match registry with
  | [] => None
  | (k, cls) :: rest =>
      if String.eqb k job_type then Some cls else registry_get rest job_type
  end.

(** What one pass through the loop meets outside the process. *)
Record iter_env := IterEnv {
  now : Z;
  claim_fault : option exn;
  claim_as_list : bool;
  sleep_interrupted : bool;
  mark_failed_fault : option exn;
  traceback : string;
  emails_env : FindEmails.env;
  decision_makers_env : FindDecisionMakers.env;
  absent_run : list ctx_op * option exn
}.

(** [worker.run()] *)
Definition worker_run (cls : handler_class) (env : iter_env) (self : job) : M unit :=
  match cls with
  | FindEmailsWorker => FindEmails.run (emails_env env) self
  | FindDecisionMakersWorker =>
      FindDecisionMakers.run (decision_makers_env env) self
  | _ => replay self (fst (absent_run env)) (snd (absent_run env))
  end.

(** [recover_orphaned_jobs(db)] *)
Definition recover_orphaned_jobs (fault : option exn) : M unit :=
  try_except
    (emit RecoverCall ;;;
     faulty fault ;;;
     d <- get_store ;;
     let recovered := length (List.filter is_running (bulk_jobs d)) in
     put_store (with_jobs d (update_where is_running reset_patch (bulk_jobs d))) ;;;
     if (0 <? recovered)%nat then
       log INFO ("Recovered " +:+ pretty recovered
                 +:+ " orphaned job(s) → reset to pending")
     else ret tt)
    (fun msg => log WARNING ("Orphan recovery check failed (non-fatal): " +:+ msg)).

Inductive loop_ctl := Continue | Break.

(** How far the process got on a finite prefix of what the environment does:
    still in the loop, or out of it through [break]. *)
Inductive loop_state := Polling | Stopped.

Section Dispatcher.

(** [POLL_INTERVAL = int(os.getenv("WORKER_POLL_INTERVAL", "5"))] *)
Variable POLL_INTERVAL : Z.

(** [result.data] of the claim call: a list of rows or one row. *)
Definition wire (as_list : bool) (claimed : option job) : rpc_data :=
  match claimed, as_list with
  | Some j, true => DataList [j]
  | None, true => DataList []
  | Some j, false => DataObj j
  | None, false => DataNone
  end.

(** What the loop does with a claimed job: the handler is looked up and
    run, and a job without handler is marked as failed. *)
Definition dispatch (env : iter_env) (job : job) : M loop_ctl :=
  let job_type := job_type job in
  let job_id := job_id job in
  log INFO ("Claimed job " +:+ job_id +:+ " (type: " +:+ job_type +:+ ")") ;;;
  match registry_get JOB_HANDLERS job_type with
  | None =>
      let error := "Unknown job type: " +:+ job_type in
      log ERROR error ;;;
      emit (MarkFailedCall job_id error) ;;;
      faulty (mark_failed_fault env) ;;;
      update_job job_id (failed_patch error) ;;;
      ret Continue
  | Some handler_class =>
      emit (Construct job_id) ;;;
      try_except (worker_run handler_class env job)
        (fun msg =>
           log ERROR ("Job " +:+ job_id +:+ " failed: " +:+ msg) ;;;
           log ERROR (traceback env) ;;;
           Base.fail job msg) ;;;
      ret Continue
  end.

(** The body of the [try] of the loop. *)
Definition attempt (env : iter_env) : M loop_ctl :=
  emit ClaimCall ;;;
  faulty (claim_fault env) ;;;
  d <- get_store ;;
  let claimed := claim_next_pending (now env) (bulk_jobs d) in
  put_store (with_jobs d (snd claimed)) ;;;
  let data := wire (claim_as_list env) (fst claimed) in
  if negb (data_truthy data) then
    time_sleep POLL_INTERVAL (sleep_interrupted env) ;;; ret Continue
  else
    let job := match data with
               | DataList rows => head rows
               | DataObj row => Some row
               | DataNone => None
               end in
    match job with
    | None => time_sleep POLL_INTERVAL (sleep_interrupted env) ;;; ret Continue
    | Some job => dispatch env job
    end.

(** One pass through [while True]: the [try] with its two [except] clauses. *)
Definition iteration (env : iter_env) : M loop_ctl :=
  try_catch (attempt env)
    (fun e =>
       match e with
       | KeyboardInterrupt =>
           log INFO "Worker shutting down (SIGINT)" ;;; ret Break
       | Exception msg =>
           log ERROR ("Worker loop error: " +:+ msg) ;;;
           log ERROR (traceback env) ;;;
           time_sleep (POLL_INTERVAL * 2) (sleep_interrupted env) ;;;
           ret Continue
       end).

(** [while True] on the passes the environment gives. *)
Fixpoint loop (script : list iter_env) : M loop_state :=
  match script with
  | [] => ret Polling
  | env :: rest =>
      c <- iteration env ;;
      match c with
      | Break => ret Stopped
      | Continue => loop rest
      end
  end.

Definition main (supabase_url : option string) (recover_fault : option exn)
    (script : list iter_env) : M loop_state :=
  log INFO "Cold Email Ninja Worker starting..." ;;;
  log INFO ("Supabase URL: " +:+ py_str_opt supabase_url) ;;;
  log INFO ("Poll interval: " +:+ pretty POLL_INTERVAL +:+ "s") ;;;
  log INFO ("Registered job types: " +:+ py_str (FList (map fst JOB_HANDLERS))) ;;;
  recover_orphaned_jobs recover_fault ;;;
  loop script.

End Dispatcher.


(** ** The crawl of find_decision_makers *)

(** [_find_from_website], [_fetch_page] and [_extract_with_openai] of
    [workers/find_decision_makers.py], over what the web and the language
    model answer.  The calls they make are recorded, in their order. *)
Module Crawl.

(** Pages to crawl on each website (in priority order). *)
Definition ABOUT_PATHS : list string :=
  ["/about"; "/about-us"; "/team"; "/our-team";
   "/leadership"; "/management"; "/staff";
   "/contact"; "/contact-us"].

(** What [requests.get] meets for a page: an exception, or a response. *)
Inductive page_outcome :=
| PageError (msg : string)
| Page (status_code : Z) (text : string).

(** What the chat completion meets: the request raises, has an error status,
    or its body or the content of the answer does not decode to an object
    ([ChatFails]); or the content decodes to the object [data]. *)
Inductive chat_outcome :=
| ChatFails (msg : string)
| ChatData (data : gmap string fval).

Inductive call :=
| FetchCall (url : string)
| ChatCall (content : string).

(** The web as the crawl meets it.  [strip_tags] stands for the four
    substitutions of [_fetch_page] and the final [strip()]; [urljoin] is the
    function of [urllib.parse], which raises on a malformed address. *)
Record web := Web {
  page_get : string -> page_outcome;
  strip_tags : string -> string;
  urljoin : string -> string -> exn + string;
  chat : string -> string -> chat_outcome
}.

(** [_fetch_page]: the text of a page, or [None]. *)
Definition _fetch_page (net : web) (url : string) : option string :=
  match page_get net url with
  | PageError _ => None
  | Page status_code text =>
      if (status_code =? 200)%Z && (200 <? String.length text)%nat
      then Some (strip_tags net text)
      else None
  end.

(** [_extract_with_openai]: the decision maker the model names, or [None];
    every exception is caught. *)
Definition _extract_with_openai (net : web) (page_content openai_key : string)
  : option (gmap string fval) :=
  match chat net page_content openai_key with
  | ChatFails _ => None
  | ChatData data =>
      if negb (bool_decide (data = ∅)) && truthy_opt (data !! "name") then
        Some (<["decision_maker_name" := default FNull (data !! "name")]>
                (<["decision_maker_title" := default (FStr "") (data !! "title")]>
                   (<["decision_maker_linkedin" :=
                        default (FStr "") (data !! "linkedin")]>
                      {["decision_maker_confidence" := FStr "medium"]})))
      else None
  end.

(** [s[:n]] *)
Definition prefix_of (n : nat) (s : string) : string := String.substring 0 n s.

Definition newline : string := String (ascii_of_nat 10) EmptyString.

(** [if content and len(content) > 500] *)
Definition good_page (content : option string) : bool :=
  match content with
  | Some text => negb (String.eqb text "") && (500 <? String.length text)%nat
  | None => false
  end.

(** [for path in ABOUT_PATHS: ...], with the pages collected so far. *)
Fixpoint crawl_paths (net : web) (base_url : string) (paths : list string)
    (page_contents : list (string * string))
  : list call * (exn + list (string * string)) :=
  match paths with
  | [] => ([], inr page_contents)
  | path :: rest =>
      match urljoin net base_url path with
      | inl e => ([], inl e)
      | inr url =>
          let content := _fetch_page net url in
          let page_contents :=
            if good_page content
            then page_contents ++ [(url, default "" content)]
            else page_contents in
          if good_page content && (3 <=? length page_contents)%nat then
            ([FetchCall url], inr page_contents)
          else
            let r := crawl_paths net base_url rest page_contents in
            (FetchCall url :: fst r, snd r)
      end
  end.

(** [combined += f"\n--- Page: {page_url} ---\n{content[:4000]}\n"] *)
Definition page_section (page : string * string) : string :=
  newline +:+ "--- Page: " +:+ fst page +:+ " ---" +:+ newline
  +:+ prefix_of 4000 (snd page) +:+ newline.

Definition combine (page_contents : list (string * string)) : string :=
  fold_left (fun combined page => combined +:+ page_section page)
            page_contents "".

(** [_find_from_website]: the calls made, and the result or the exception
    that [urljoin] raised. *)
Definition _find_from_website (net : web) (base_url openai_key : string)
  : list call * (exn + option (gmap string fval)) :=
  let homepage_content := _fetch_page net base_url in
  let page_contents :=
    match homepage_content with
    | Some text => if String.eqb text "" then [] else [(base_url, text)]
    | None => []
    end in
  let r := crawl_paths net base_url ABOUT_PATHS page_contents in
  match snd r with
  | inl e => (FetchCall base_url :: fst r, inl e)
  | inr [] => (FetchCall base_url :: fst r, inr None)
  | inr page_contents =>
      let combined := combine page_contents in
      let source_urls := map fst page_contents in
      let content := prefix_of 10000 combined in
      let result := _extract_with_openai net content openai_key in
      (FetchCall base_url :: fst r ++ [ChatCall content],
       inr (match result with
            | Some info =>
                Some (<["decision_maker_source" :=
                          FStr (String.concat ", " source_urls)]> info)
            | None => None
            end))
  end.

(** The environment of the handler over this web. *)
Definition env_of (net : web) (fetch_fault : option exn)
    (get_base_url : string -> string) : FindDecisionMakers.env :=
  FindDecisionMakers.Env fetch_fault get_base_url
    (fun base_url key => snd (_find_from_website net base_url key)).

End Crawl.
(** * Vocabulary of the statements *)

(** A computation [steps] along a relation on worlds when every run of it
    relates the world it starts in to the world it leaves. *)
Definition steps (R : relation world) {A} (c : M A) : Prop :=
  forall w, R w (fst (c w)).

(** The trace of [w'] is the trace of [w] followed by events that all
    satisfy [P]. *)
Definition extends (P : event -> Prop) (w w' : world) : Prop :=
  exists t : list event, trace w' = trace w ++ t /\ Forall P t.

Definition not_recover (e : event) : Prop := e <> RecoverCall.

(** The table of [w'] has the rows of [w] under the same ids, and differs
    from it at most in the rows with the id [id]. *)
Definition job_frame (id : string) (w w' : world) : Prop :=
  map job_id (bulk_jobs (store w')) = map job_id (bulk_jobs (store w)) /\
  forall i j, bulk_jobs (store w) !! i = Some j -> job_id j <> id ->
              bulk_jobs (store w') !! i = Some j.

(** The world [w] with the events [t] added to its trace. *)
Definition add (w : world) (t : list event) : world :=
  World (store w) (trace w ++ t).

(** The world in which a claimed job is dispatched, or the loop sleeps. *)
Definition claimed_world (env : iter_env) (w : world) : world :=
  World (with_jobs (store w)
           (snd (claim_next_pending (now env) (bulk_jobs (store w)))))
        (trace w ++ [ClaimCall]).

(** The table [jobs'] has the rows of [jobs] under the same ids, and the rows
    that are running in [jobs] are the same in [jobs']. *)
Definition orphans_kept (jobs jobs' : list job) : Prop :=
  map job_id jobs' = map job_id jobs /\
  forall (i : nat) j, jobs !! i = Some j -> job_status j = running ->
                      jobs' !! i = Some j.

(** What [main] logs before it does anything. *)
Definition banner (P : Z) (url : option string) : list event :=
  [ Log INFO "Cold Email Ninja Worker starting...";
    Log INFO ("Supabase URL: " +:+ py_str_opt url);
    Log INFO ("Poll interval: " +:+ pretty P +:+ "s");
    Log INFO ("Registered job types: " +:+ py_str (FList (map fst JOB_HANDLERS))) ].

Definition recovered_log (jobs : list job) : list event :=
  let recovered := length (List.filter is_running jobs) in
  if (0 <? recovered)%nat
  then [Log INFO ("Recovered " +:+ pretty recovered
                  +:+ " orphaned job(s) → reset to pending")]
  else [].

Definition recovery_warning (msg : string) : event :=
  Log WARNING ("Orphan recovery check failed (non-fatal): " +:+ msg).

(** The world in which the loop is entered. *)
Definition swept (P : Z) (url : option string) (fault : option exn)
    (w : world) : world :=
  fst (main P url fault [] w).

(** Every job that is running in [w] is pending in [w1], without start time
    and with an empty progress map. *)
Definition orphans_reset (w w1 : world) : Prop :=
  forall (i : nat) j,
    bulk_jobs (store w) !! i = Some j -> job_status j = running ->
    exists j', bulk_jobs (store w1) !! i = Some j' /\
               job_id j' = job_id j /\ job_status j' = pending /\
               job_started_at j' = None /\ job_progress j' = ∅.


(** The job [id] is in the table of [w], failed, with the error [error]. *)
Definition failed_with (id error : string) (w : world) : Prop :=
  (exists (i : nat) j, bulk_jobs (store w) !! i = Some j /\ job_id j = id) /\
  forall (i : nat) j,
    bulk_jobs (store w) !! i = Some j -> job_id j = id ->
    job_status j = failed /\ job_error j = Some error.

(** What the claim call gives the loop in the world [w]. *)
Definition claims (env : iter_env) (w : world) (j : job) : Prop :=
  claim_fault env = None /\
  fst (claim_next_pending (now env) (bulk_jobs (store w))) = Some j.

Definition claimed_log (j : job) : event :=
  Log INFO ("Claimed job " +:+ job_id j +:+ " (type: " +:+ job_type j +:+ ")").

(** The world in which the handler of the claimed job [j] starts to run. *)
Definition handler_world (env : iter_env) (w : world) (j : job) : world :=
  add (claimed_world env w) [claimed_log j; Construct (job_id j)].

(** The thread pool hands back every submitted task once, in some order. *)
Definition fair_pool (e : FindEmails.env) : Prop :=
  forall l, FindEmails.as_completed e l ≡ₚ l.

(** No interrupt signal reaches the process during the pass. *)
Definition quiet (env : iter_env) : Prop :=
  claim_fault env <> Some KeyboardInterrupt /\
  sleep_interrupted env = false /\
  mark_failed_fault env <> Some KeyboardInterrupt /\
  snd (absent_run env) <> Some KeyboardInterrupt /\
  FindEmails.fetch_fault (emails_env env) <> Some KeyboardInterrupt /\
  fair_pool (emails_env env) /\
  FindDecisionMakers.fetch_fault (decision_makers_env env)
    <> Some KeyboardInterrupt /\
  forall url key,
    FindDecisionMakers._find_from_website (decision_makers_env env) url key
    <> inl KeyboardInterrupt.

(** A computation is [calm] when no run of it ends in an interrupt. *)
Definition calm {A} (c : M A) : Prop :=
  forall w, snd (c w) <> inl KeyboardInterrupt.

(** What the loop logs and does when an exception reaches its [except]. *)
Definition backoff (P : Z) (env : iter_env) (msg : string) : list event :=
  [ Log ERROR ("Worker loop error: " +:+ msg);
    Log ERROR (traceback env);
    Sleep (P * 2) ].

(** The table of [w] has a row with the id [id]. *)
Definition has_job (id : string) (w : world) : Prop :=
  exists (i : nat) j, bulk_jobs (store w) !! i = Some j /\ job_id j = id.

(** What the loop logs and does when the run of the handler of [j] raises. *)
Definition failure_report (env : iter_env) (j : job) (msg : string)
  : list event :=
  [ Log ERROR ("Job " +:+ job_id j +:+ " failed: " +:+ msg);
    Log ERROR (traceback env);
    FailCall (job_id j) msg ].

(** A pass of the loop that returns does so with [Continue]. *)
Definition only_continue (c : M loop_ctl) : Prop :=
  forall w w' x, c w = (w', inr x) -> x = Continue.

(** A task of the pool does not end in an interrupt. *)
Definition settled (f : FindEmails.future) : Prop :=
  FindEmails.fut_result f <> inl KeyboardInterrupt.

(** The [(processed, total)] pairs of the progress reports in a trace. *)
Definition progress_calls (t : list event) : list (nat * nat) :=
  omap (fun e => match e with
                 | ProgressCall _ p total _ => Some (p, total)
                 | _ => None
                 end) t.

(** The record updates in a trace. *)
Definition lead_updates (t : list event) : list (string * updates) :=
  omap (fun e => match e with
                 | LeadUpdateCall id u => Some (id, u)
                 | _ => None
                 end) t.

(** The payloads of the completions in a trace. *)
Definition completions (t : list event) : list (gmap string fval) :=
  omap (fun e => match e with
                 | CompleteCall _ payload => Some payload
                 | _ => None
                 end) t.

(** The update that a completed task of find_emails yields, if any. *)
Definition outcome_of (f : FindEmails.future) : option (string * updates) :=
  match FindEmails.fut_result f with
  | inr (Some c) =>
      if FindEmails.contacts_truthy c then
        let u := FindEmails._map_contacts c in
        if updates_truthy u then Some (lead_id (FindEmails.fut_lead f), u)
        else None
      else None
  | _ => None
  end.

(** The counts at which a handler that reports every [step] completions
    reports, among the completions [p + 1], ..., [p + len]. *)
Definition cadence (step p len : nat) : list nat :=
  List.filter (fun k => (k mod step =? 0)%nat) (seq (S p) len).

(** The address [_scrape_contacts] asks the contacts API about. *)
Definition request_url (site : string) : string :=
  if startswith site "http" then site else "https://" +:+ site.

(** The operation of find_emails on the lead [l] fails: its web site is not
    a string, the request raises (connection error, timeout), or the answer
    has an error status. *)
Definition request_fails (e : FindEmails.env) (l : lead) : Prop :=
  match website_of l with
  | FStr site =>
      match FindEmails.requests_get e (request_url site) with
      | FindEmails.RequestError _ => True
      | FindEmails.Response code _ => (400 <= code < 600)%Z
      end
  | _ => True
  end.

(** The key of the service [name] is configured. *)
Definition has_key (name key : string) (w : world) : Prop :=
  api_keys (store w) !! name = Some key /\ key <> "".

(** What find_emails logs about the rows it fetched. *)
Definition fetched_log (self : job) (fetched : list lead) : event :=
  Log INFO ("Fetched " +:+ pretty (length fetched) +:+ " leads (validated_only="
            +:+ py_str_bool (FindEmails.validated_only_of self)
            +:+ ", include_existing="
            +:+ py_str_bool (FindEmails.include_existing_of self) +:+ ")").

(** The result payload of a batch. *)
Definition batch_result (counter : string) (processed n total : nat)
  : gmap string fval :=
  <["processed" := FNum (Z.of_nat processed)]>
    (<[counter := FNum (Z.of_nat n)]>
       {["total" := FNum (Z.of_nat total)]}).

(** The job [self] is done in [w], with the given progress and result. *)
Definition done_with (self : job) (progress result : gmap string fval)
    (w : world) : Prop :=
  forall (i : nat) j,
    bulk_jobs (store w) !! i = Some j -> job_id j = job_id self ->
    job_status j = done /\ job_progress j = progress
    /\ job_result j = Some result.

(** The rows of the leads table that pass the filters of the query of
    find_emails for the job [self]. *)
Definition passing (self : job) (w : world) : list lead :=
  List.filter (store_filter (job_campaign_id self) "email"
                 (FindEmails.include_existing_of self)
                 (FindEmails.validated_only_of self))
              (leads (store w)).

(** The crawl of find_decision_makers for the lead [l] returns: the web
    site of the lead is a string and no exception escapes the crawl. *)
Definition crawl_returns (e : FindDecisionMakers.env) (key : string)
    (l : lead) : Prop :=
  exists site r,
    website_of l = FStr site /\
    FindDecisionMakers._find_from_website e
      (FindDecisionMakers._get_base_url e (request_url site)) key = inr r.

(** The progress reports of a batch of [N] leads by a handler that reports
    every [step] completions: one before the first lead, one at every
    [step]-th completion, and one after the last. *)
Definition reports (step N : nat) : list (nat * nat) :=
  (0%nat, N) :: map (fun k => (k, N)) (cadence step 0 N) ++ [(N, N)].

(** ** Sample data *)

Definition no_config : job_config := JobConfig None None None.

Definition sample_job (id type : string) (s : status) : job :=
  Job id type s no_config "campaign-1" ∅ None None None.

(** A job that a crashed process left behind. *)
Definition orphan : job :=
  Job "job-0" "clean_leads" running no_config "campaign-1"
      (<["processed" := FNum 4]> {["total" := FNum 9]}) (Some 1700000000%Z)
      None None.

Definition sample_store : db :=
  Db [orphan; sample_job "job-1" "unknown_type" pending] [] ∅.

Definition sample_world : world := World sample_store [].

(** A pass in which nothing fails: the web site of no lead answers. *)
Definition sample_emails_env : FindEmails.env :=
  FindEmails.Env None (fun _ => FindEmails.RequestError "timed out") (fun l => l).

Definition sample_decision_makers_env : FindDecisionMakers.env :=
  FindDecisionMakers.Env None (fun url => url) (fun _ _ => inr None).

Definition sample_env : iter_env :=
  IterEnv 1700000100 None true false None "Traceback (most recent call last): ..."
          sample_emails_env sample_decision_makers_env ([], None).

(** A pass in which the store refuses the update of an unknown job. *)
Definition store_down_env : iter_env :=
  IterEnv 1700000100 None true false (Some (Exception "store unreachable"))
          "Traceback (most recent call last): ..."
          sample_emails_env sample_decision_makers_env ([], None).

(** The row the claim gives for ["job-1"] of the sample store. *)
Definition claimed_sample : job :=
  Job "job-1" "unknown_type" running no_config "campaign-1" ∅
      (Some 1700000100%Z) None None.

(** Two jobs in the queue: the handler of the first raises after a progress
    report, the handler of the second reports and completes. *)
Definition two_jobs : world :=
  World (Db [sample_job "job-a" "clean_leads" pending;
             sample_job "job-b" "scrape_maps" pending] [] ∅) [].

Definition raising_env : iter_env :=
  IterEnv 1700000100 None true false None "Traceback (most recent call last): ..."
          sample_emails_env sample_decision_makers_env
          ([OpProgress 1 3 ∅], Some (Exception "division by zero")).

Definition completing_env : iter_env :=
  IterEnv 1700000200 None true false None "Traceback (most recent call last): ..."
          sample_emails_env sample_decision_makers_env
          ([OpProgress 2 2 ∅; OpComplete {["processed" := FNum 2]}], None).

Definition claimed_a : job :=
  Job "job-a" "clean_leads" running no_config "campaign-1" ∅
      (Some 1700000100%Z) None None.

Definition claimed_b : job :=
  Job "job-b" "scrape_maps" running no_config "campaign-1" ∅
      (Some 1700000200%Z) None None.

Definition empty_queue : world := World (Db [] [] ∅) [].

(** Leads of one campaign, validated and without email. *)
Definition sample_lead (id site : string) : lead :=
  Lead id (<["campaign_id" := FStr "campaign-1"]>
             (<["company_website" := FStr site]>
                (<["company_name" := FStr ("Company " +:+ id)]> ∅)))
       (Some {["website_validated" := FBool true]}).

(** A validated lead of the campaign that has neither web site nor domain. *)
Definition siteless_lead : lead :=
  Lead "lead-0" (<["campaign_id" := FStr "campaign-1"]> ∅)
       (Some {["website_validated" := FBool true]}).

Definition five_leads : list lead :=
  [ sample_lead "lead-1" "a.com"; sample_lead "lead-2" "https://b.org";
    sample_lead "lead-3" "c.net"; sample_lead "lead-4" "d.io";
    sample_lead "lead-5" "e.dev" ].

(** A claimed job of type find_emails with the configuration
    [{"max_leads": 3}]. *)
Definition emails_job : job :=
  Job "job-e" "find_emails" running (JobConfig (Some 3%nat) None None)
      "campaign-1" ∅ (Some 1700000100%Z) None None.

Definition leads_world (table : list lead) : world :=
  World (Db [emails_job] table {["openwebninja" := "secret"]}) [].

Definition sample_contacts : FindEmails.contacts :=
  FindEmails.Contacts (Some [FindEmails.EntryDict (Some "info@example.com")])
                      None None None None true.

(** The contacts API answers for every site but [b.org], which times out;
    the pool completes the tasks in the reverse order. *)
Definition sample_http (url : string) : FindEmails.http_outcome :=
  if String.eqb url "https://b.org" then FindEmails.RequestError "timed out"
  else FindEmails.Response 200
         (Some (FindEmails.ApiBody (Some "OK") [sample_contacts])).

Definition reversing_env : FindEmails.env :=
  FindEmails.Env None sample_http reverse.

(** A claimed job of type find_decision_makers, and a store with the key
    of the language model. *)
Definition makers_job : job :=
  Job "job-d" "find_decision_makers" running no_config
      "campaign-1" ∅ (Some 1700000100%Z) None None.

Definition makers_world (table : list lead) : world :=
  World (Db [makers_job] table {["openai" := "secret"]}) [].

(** The crawl finds the owner of [a.com] and nobody elsewhere. *)
Definition sample_crawl (url key : string) : exn + option (gmap string fval) :=
  if String.eqb url "https://a.com"
  then inr (Some (<["decision_maker_name" := FStr "Ada"]>
                    {["decision_maker_confidence" := FStr "medium"]}))
  else inr None.

Definition crawling_env : FindDecisionMakers.env :=
  FindDecisionMakers.Env None (fun url => url) sample_crawl.

(** Twelve leads with a web site. *)
Definition twelve_leads : list lead :=
  map (fun n : nat => sample_lead ("lead-" +:+ pretty n) "a.com") (seq 1 12).

(** A lead on which an earlier stage has recorded its outcome. *)
Definition staged_lead : lead :=
  Lead "lead-9" (<["campaign_id" := FStr "campaign-1"]> ∅)
       (Some {["stage_a" := FStr "done"]}).

Definition staged_world : world := World (Db [] [staged_lead] ∅) [].

Definition stage_b_update : updates :=
  Updates ∅ (Some {["stage_b" := FStr "done"]}).

(** * Vocabulary of the further statements *)

(** No row of the table is pending. *)
Definition none_pending (w : world) : Prop :=
  Forall (fun j => job_status j <> pending) (bulk_jobs (store w)).

(** A queue in which every job is past its run. *)
Definition settled_queue : world :=
  World (Db [sample_job "job-7" "clean_leads" done;
             sample_job "job-8" "scrape_maps" failed] [] ∅) [].

(** A pass in which the claim call cannot reach the store. *)
Definition unreachable_env : iter_env :=
  IterEnv 1700000100 (Some (Exception "connection reset")) true false None
          "Traceback (most recent call last): ..."
          sample_emails_env sample_decision_makers_env ([], None).

(** A pass in which the interrupt signal arrives while the handler runs,
    after its first progress report. *)
Definition interrupted_env : iter_env :=
  IterEnv 1700000100 None true false None "Traceback (most recent call last): ..."
          sample_emails_env sample_decision_makers_env
          ([OpProgress 1 3 ∅], Some KeyboardInterrupt).

(** The job [self] is done in [w] with the result [result]. *)
Definition done_result (self : job) (result : gmap string fval) (w : world)
  : Prop :=
  forall (i : nat) j,
    bulk_jobs (store w) !! i = Some j -> job_id j = job_id self ->
    job_status j = done /\ job_result j = Some result.

(** The result of a run that found no lead to process. *)
Definition nothing_to_do (message : string) : gmap string fval :=
  <["processed" := FNum 0]> {["message" := FStr message]}.

(** A store without any API key. *)
Definition keyless_world : world :=
  World (Db [emails_job] five_leads ∅) [].

(** The store cannot be reached when find_emails fetches its leads. *)
Definition outage_emails_env : FindEmails.env :=
  FindEmails.Env (Some (Exception "connection reset")) sample_http reverse.

Definition outage_env : iter_env :=
  IterEnv 1700000100 None true false None "Traceback (most recent call last): ..."
          outage_emails_env sample_decision_makers_env ([], None).

(** A queue with one pending job of type find_emails, five leads and the
    key of the contacts API. *)
Definition emails_queue : world :=
  World (Db [Job "job-e" "find_emails" pending (JobConfig (Some 3%nat) None None)
                 "campaign-1" ∅ None None None]
            five_leads {["openwebninja" := "secret"]}) [].

(** The columns that [_map_contacts] can write. *)
Definition contact_columns : list string :=
  ["email"; "emails"; "phone"; "phones"; "social_facebook"; "social_instagram";
   "social_linkedin"; "social_twitter"].

(** Every key of [m] is among [keys]. *)
Definition keys_among (keys : list string) (m : gmap string fval) : Prop :=
  forall k, is_Some (m !! k) -> k ∈ keys.

(** The phone entries [_map_contacts] reads: those under ["phone_numbers"]
    when the answer has that key, else those under ["phones"]. *)
Definition phone_entries (c : FindEmails.contacts) : list FindEmails.entry :=
  match FindEmails.c_phone_numbers c with
  | Some p => p
  | None => default [] (FindEmails.c_phones c)
  end.

(** What a pair of columns holds for the collected values [vs]: nothing when
    there is none, else the first value and the list. *)
Definition holds_values (single plural : string) (vs : list string)
    (m : gmap string fval) : Prop :=
  match vs with
  | [] => m !! single = None /\ m !! plural = None
  | v :: _ => m !! single = Some (FStr v) /\ m !! plural = Some (FList vs)
  end.

(** An answer with two addresses, one of them without value, a number that
    is not a string, and phones under both keys. *)
Definition mixed_contacts : FindEmails.contacts :=
  FindEmails.Contacts
    (Some [FindEmails.EntryOther; FindEmails.EntryStr "sales@example.com";
           FindEmails.EntryDict None])
    (Some [FindEmails.EntryDict (Some "+1 555 0100")])
    (Some [FindEmails.EntryStr "+1 555 0199"])
    (Some (FindEmails.SocialList
             [FindEmails.SocialDict (Some "Facebook") (Some "https://fb.example") None]))
    None true.

(** The tables of [w'] have the rows of the tables of [w] under the same
    ids, in the same order, and the API keys are the same. *)
Definition rows_kept (w w' : world) : Prop :=
  map job_id (bulk_jobs (store w')) = map job_id (bulk_jobs (store w))
  /\ map lead_id (leads (store w')) = map lead_id (leads (store w))
  /\ api_keys (store w') = api_keys (store w).

(** The update [u] records the outcome [tag] of find_decision_makers for the
    lead [l], beside the outcomes the lead had when it was fetched. *)
Definition records_outcome (l : lead) (tag : string) (u : updates) : Prop :=
  upd_status u = Some (FindDecisionMakers.stage_status l tag).

(** The update of find_decision_makers for the lead [l]: the decision maker
    was found (and [found] grows by one), or was not (and only the status
    map is written). *)
Definition makers_update (l : lead) (iu : string * updates) : Prop :=
  fst iu = lead_id l
  /\ (records_outcome l "done" (snd iu)
      \/ (records_outcome l "not_found" (snd iu) /\ upd_fields (snd iu) = ∅)).

(** The update says that the decision maker was found. *)
Definition says_done (iu : string * updates) : bool :=
  match upd_status (snd iu) with
  | Some m => match m !! "find_decision_makers" with
              | Some (FStr tag) => String.eqb tag "done"
              | _ => false
              end
  | None => false
  end.

(** The crawl of find_decision_makers for the lead [l] raises an exception
    with the message [msg]: the web site of the lead is not a string, or an
    exception escapes the crawl. *)
Definition crawl_raises (e : FindDecisionMakers.env) (key : string)
    (l : lead) (msg : string) : Prop :=
  match website_of l with
  | FStr site =>
      FindDecisionMakers._find_from_website e
        (FindDecisionMakers._get_base_url e (request_url site)) key
      = inl (Exception msg)
  | v => msg = "'" +:+ py_type_name v +:+ "' object has no attribute 'startswith'"
  end.

(** A lead whose web site column holds a number. *)
Definition odd_lead : lead :=
  Lead "lead-x" (<["campaign_id" := FStr "campaign-1"]>
                   (<["company_website" := FNum 42]> ∅))
       (Some {["website_validated" := FBool true]}).

(** * Properties *)

(** ** Reasoning about computations *)

Lemma bind_inr {A B} (c : M A) (k : A -> M B) w w' a :
  c w = (w', inr a) -> bind c k w = k a w'.
Proof. intros H. unfold bind. now rewrite H. Qed.

Lemma bind_inl {A B} (c : M A) (k : A -> M B) w w' e :
  c w = (w', inl e) -> bind c k w = (w', inl e).
Proof. intros H. unfold bind. now rewrite H. Qed.

Lemma try_catch_inr {A} (c : M A) h w w' a :
  c w = (w', inr a) -> try_catch c h w = (w', inr a).
Proof. intros H. unfold try_catch. now rewrite H. Qed.

Lemma try_catch_inl {A} (c : M A) h w w' e :
  c w = (w', inl e) -> try_catch c h w = h e w'.
Proof. intros H. unfold try_catch. now rewrite H. Qed.

Lemma try_except_inr {A} (c : M A) h w w' a :
  c w = (w', inr a) -> try_except c h w = (w', inr a).
Proof. intros H. unfold try_except. now rewrite H. Qed.

Lemma try_except_exception {A} (c : M A) h w w' msg :
  c w = (w', inl (Exception msg)) -> try_except c h w = h msg w'.
Proof. intros H. unfold try_except. now rewrite H. Qed.

Lemma try_except_interrupt {A} (c : M A) h w w' :
  c w = (w', inl KeyboardInterrupt) ->
  try_except c h w = (w', inl KeyboardInterrupt).
Proof. intros H. unfold try_except. now rewrite H. Qed.

Section Steps.

Context (R : relation world) `{!PreOrder R}.

Lemma steps_ret {A} (a : A) : steps R (ret a).
Proof. intros w. reflexivity. Qed.

Lemma steps_raise {A} e : steps R (@raise A e).
Proof. intros w. reflexivity. Qed.

Lemma steps_faulty f : steps R (faulty f).
Proof. destruct f; [apply steps_raise | apply steps_ret]. Qed.

Lemma steps_get_store : steps R get_store.
Proof. intros w. reflexivity. Qed.

Lemma steps_bind {A B} (c : M A) (k : A -> M B) :
  steps R c -> (forall a, steps R (k a)) -> steps R (bind c k).
Proof.
  intros Hc Hk w. unfold bind. specialize (Hc w).
  destruct (c w) as [w' [e | a]]; simpl in *; [assumption |].
  etransitivity; [exact Hc | apply Hk].
Qed.

Lemma steps_try_except {A} (c : M A) h :
  steps R c -> (forall msg, steps R (h msg)) -> steps R (try_except c h).
Proof.
  intros Hc Hh w. unfold try_except. specialize (Hc w).
  destruct (c w) as [w' [[msg |] | a]]; simpl in *; try assumption.
  etransitivity; [exact Hc | apply Hh].
Qed.

Lemma steps_try_catch {A} (c : M A) h :
  steps R c -> (forall e, steps R (h e)) -> steps R (try_catch c h).
Proof.
  intros Hc Hh w. unfold try_catch. specialize (Hc w).
  destruct (c w) as [w' [e | a]]; simpl in *; try assumption.
  etransitivity; [exact Hc | apply Hh].
Qed.

End Steps.

Create HintDb steps.
#[export] Hint Resolve steps_ret steps_raise steps_faulty steps_get_store : steps.

(** Splits a computation along its binds and its branches; what is left is
    about the single calls it makes. *)
Ltac split_steps :=
  repeat first
    [ solve [auto with steps]
    | apply steps_bind; [typeclasses eauto | | intros ?]
    | apply steps_try_except; [typeclasses eauto | | intros ?]
    | apply steps_try_catch; [typeclasses eauto | | intros ?]
    | match goal with
      | |- steps _ (if ?b then _ else _) => destruct b
      | |- steps _ (match ?x with _ => _ end) => destruct x
      end ].

(** ** What a run adds to the trace *)

#[export] Instance extends_preorder P : PreOrder (extends P).
Proof.
  split.
  - intros w. exists []. split; [now rewrite app_nil_r | constructor].
  - intros a b c [t1 [E1 F1]] [t2 [E2 F2]]. exists (t1 ++ t2). split.
    + now rewrite E2, E1, app_assoc.
    + now apply Forall_app.
Qed.

Lemma extends_emit (P : event -> Prop) e : P e -> steps (extends P) (emit e).
Proof. intros H w. exists [e]. split; [reflexivity | now repeat constructor]. Qed.

Lemma extends_put_store (P : event -> Prop) d : steps (extends P) (put_store d).
Proof. intros w. exists []. split; [simpl; now rewrite app_nil_r | constructor]. Qed.

#[export] Hint Resolve extends_preorder extends_put_store : steps.

(** ** What every handler run preserves *)

(** A relation that the calls on the execution context of [self] step along
    is stepped along by every run of a handler for [self]. *)
Section Handlers.

Context (R : relation world) `{!PreOrder R} (self : job).

Hypothesis R_log : forall l m, steps R (log l m).
Hypothesis R_progress :
  forall p t x, steps R (Base.update_progress self p t x).
Hypothesis R_complete : forall x, steps R (Base.complete self x).
Hypothesis R_fail : forall m, steps R (Base.fail self m).
Hypothesis R_update_lead : forall id u, steps R (Base.update_lead id u).

Lemma get_api_key_steps k : steps R (Base.get_api_key k).
Proof using PreOrder0. unfold Base.get_api_key. split_steps. Qed.

#[local] Hint Resolve get_api_key_steps R_log R_progress R_complete R_fail
  R_update_lead : steps.

Lemma harvest_steps total cs p n :
  steps R (FindEmails.harvest self total cs p n).
Proof using All.
  revert p n. induction cs as [| f rest IH]; intros p n; simpl.
  - split_steps.
  - unfold FindEmails.enrich_one. split_steps.
Qed.

Lemma find_emails_steps e : steps R (FindEmails.run e self).
Proof using All.
  unfold FindEmails.run. pose proof harvest_steps. split_steps.
Qed.

Lemma process_all_steps e k total ls p n :
  steps R (FindDecisionMakers.process_all e k self total ls p n).
Proof using All.
  revert p n. induction ls as [| l rest IH]; intros p n; simpl.
  - split_steps.
  - unfold FindDecisionMakers.process_lead. split_steps.
Qed.

Lemma find_decision_makers_steps e : steps R (FindDecisionMakers.run e self).
Proof using All.
  unfold FindDecisionMakers.run. pose proof process_all_steps. split_steps.
Qed.

Lemma replay_steps ops o : steps R (replay self ops o).
Proof using All.
  induction ops as [| op rest IH]; simpl; [split_steps |].
  apply steps_bind; [typeclasses eauto | | intros _; exact IH].
  destruct op; simpl; auto with steps.
Qed.

Lemma worker_run_steps cls env : steps R (worker_run cls env self).
Proof using All.
  destruct cls; simpl;
    auto using find_emails_steps, find_decision_makers_steps, replay_steps.
Qed.

End Handlers.

(** ** The loop never sweeps *)

Ltac no_recover :=
  split_steps; try (apply extends_emit; unfold not_recover; discriminate).

Lemma update_progress_no_recover self p t x :
  steps (extends not_recover) (Base.update_progress self p t x).
Proof. unfold Base.update_progress, update_job. no_recover. Qed.

Lemma complete_no_recover self x :
  steps (extends not_recover) (Base.complete self x).
Proof. unfold Base.complete, update_job. no_recover. Qed.

Lemma fail_no_recover self m : steps (extends not_recover) (Base.fail self m).
Proof. unfold Base.fail, update_job. no_recover. Qed.

Lemma update_lead_no_recover id u :
  steps (extends not_recover) (Base.update_lead id u).
Proof. unfold Base.update_lead. no_recover. Qed.

Lemma log_no_recover l m : steps (extends not_recover) (log l m).
Proof. unfold log. no_recover. Qed.

Lemma time_sleep_no_recover s i : steps (extends not_recover) (time_sleep s i).
Proof. unfold time_sleep. no_recover. Qed.

Lemma worker_run_no_recover cls env self :
  steps (extends not_recover) (worker_run cls env self).
Proof.
  apply worker_run_steps;
    auto using extends_preorder, log_no_recover, update_progress_no_recover,
               complete_no_recover, fail_no_recover, update_lead_no_recover.
Qed.

#[export] Hint Resolve fail_no_recover log_no_recover time_sleep_no_recover
  worker_run_no_recover : steps.

Lemma iteration_no_recover P env : steps (extends not_recover) (iteration P env).
Proof. unfold iteration, attempt, dispatch, update_job. no_recover. Qed.

Lemma loop_no_recover P script : steps (extends not_recover) (loop P script).
Proof.
  induction script as [| env rest IH]; simpl; [no_recover |].
  apply steps_bind; [typeclasses eauto | apply iteration_no_recover |].
  intros []; [exact IH | no_recover].
Qed.

(** ** What a handler run leaves of the bulk_jobs table *)

#[export] Instance job_frame_preorder id : PreOrder (job_frame id).
Proof.
  split.
  - intros w. split; auto.
  - intros a b c [I1 F1] [I2 F2]. split; [congruence | auto].
Qed.

Lemma update_where_lookup sel patch jobs (i : nat) :
  update_where sel patch jobs !! i
  = (fun j => if sel j then patch j else j) <$> jobs !! i.
Proof. unfold update_where. apply list_lookup_fmap. Qed.

Lemma update_where_ids sel patch jobs :
  (forall j, job_id (patch j) = job_id j) ->
  map job_id (update_where sel patch jobs) = map job_id jobs.
Proof.
  intros H. unfold update_where. rewrite map_map. apply map_ext.
  intros j. now destruct (sel j).
Qed.

Lemma has_id_false id j : job_id j <> id -> has_id id j = false.
Proof. intros H. unfold has_id. now apply String.eqb_neq. Qed.

Lemma update_job_frame id patch :
  (forall j, job_id (patch j) = job_id j) ->
  steps (job_frame id) (update_job id patch).
Proof.
  intros H w. split; simpl.
  - now apply update_where_ids.
  - intros i j Hi Hne. rewrite update_where_lookup, Hi. simpl.
    now rewrite has_id_false.
Qed.

Lemma emit_frame id e : steps (job_frame id) (emit e).
Proof. intros w. split; simpl; auto. Qed.

Lemma log_frame id l m : steps (job_frame id) (log l m).
Proof. apply emit_frame. Qed.

Lemma update_progress_frame self p t x :
  steps (job_frame (job_id self)) (Base.update_progress self p t x).
Proof.
  unfold Base.update_progress.
  apply steps_bind; [typeclasses eauto | apply emit_frame | intros _].
  now apply update_job_frame.
Qed.

Lemma complete_frame self x :
  steps (job_frame (job_id self)) (Base.complete self x).
Proof.
  unfold Base.complete.
  apply steps_bind; [typeclasses eauto | apply emit_frame | intros _].
  now apply update_job_frame.
Qed.

Lemma fail_frame self m : steps (job_frame (job_id self)) (Base.fail self m).
Proof.
  unfold Base.fail.
  apply steps_bind; [typeclasses eauto | apply emit_frame | intros _].
  now apply update_job_frame.
Qed.

Lemma update_lead_frame id' id u : steps (job_frame id') (Base.update_lead id u).
Proof. intros w. split; simpl; auto. Qed.

Lemma worker_run_frame cls env self :
  steps (job_frame (job_id self)) (worker_run cls env self).
Proof.
  apply worker_run_steps;
    auto using job_frame_preorder, log_frame, update_progress_frame,
               complete_frame, fail_frame, update_lead_frame.
Qed.

(** ** The claim *)

Lemma claim_ids now jobs :
  map job_id (snd (claim_next_pending now jobs)) = map job_id jobs.
Proof.
  induction jobs as [| j rest IH]; simpl; [reflexivity |].
  destruct (status_eqb (job_status j) pending); simpl; [reflexivity |].
  now rewrite IH.
Qed.

Lemma status_eqb_eq a b : status_eqb a b = true <-> a = b.
Proof. destruct a, b; simpl; split; congruence. Qed.

Lemma claim_keeps now jobs (i : nat) j :
  jobs !! i = Some j -> job_status j <> pending ->
  snd (claim_next_pending now jobs) !! i = Some j.
Proof.
  revert i. induction jobs as [| j0 rest IH]; intros i Hi Hs; [discriminate |].
  simpl. destruct (status_eqb (job_status j0) pending) eqn:E; simpl.
  - destruct i as [| i]; simpl in *; [| assumption].
    apply status_eqb_eq in E. congruence.
  - destruct i as [| i]; simpl in *; [assumption | now apply IH].
Qed.

Lemma claim_none now jobs :
  fst (claim_next_pending now jobs) = None ->
  snd (claim_next_pending now jobs) = jobs.
Proof.
  induction jobs as [| j rest IH]; simpl; [reflexivity |].
  destruct (status_eqb (job_status j) pending); simpl; [discriminate |].
  intros H. now rewrite IH.
Qed.

(** The claimed job is a row that was pending; the table holds it as
    running under the same id, and the caller gets that row. *)
Lemma claim_some now jobs j' :
  fst (claim_next_pending now jobs) = Some j' ->
  exists (k : nat) j,
    jobs !! k = Some j /\ job_status j = pending /\
    snd (claim_next_pending now jobs) !! k = Some j' /\
    j' = set_job j running (job_progress j) (Some now) (job_result j) (job_error j).
Proof.
  induction jobs as [| j0 rest IH]; simpl; [discriminate |].
  destruct (status_eqb (job_status j0) pending) eqn:E; simpl.
  - intros [= <-]. exists 0%nat, j0. apply status_eqb_eq in E. now repeat split.
  - intros H. destruct (IH H) as (k & j & H1 & H2 & H3 & H4).
    exists (S k), j. now repeat split.
Qed.

(** ** The passes of the loop *)

Lemma add_add w t1 t2 : add (add w t1) t2 = add w (t1 ++ t2).
Proof. unfold add. simpl. now rewrite app_assoc. Qed.

Lemma attempt_eq P env w :
  attempt P env w =
  match claim_fault env with
  | Some e => (add w [ClaimCall], inl e)
  | None =>
      match fst (claim_next_pending (now env) (bulk_jobs (store w))) with
      | None => (time_sleep P (sleep_interrupted env) ;;; ret Continue)
                  (claimed_world env w)
      | Some j => dispatch env j (claimed_world env w)
      end
  end.
Proof.
  unfold attempt, claimed_world, add, bind, emit, faulty, get_store, put_store, raise, ret.
  simpl. destruct (claim_fault env); [reflexivity |]. simpl.
  destruct (fst (claim_next_pending (now env) (bulk_jobs (store w))));
    destruct (claim_as_list env); reflexivity.
Qed.

Lemma time_sleep_eq s i w :
  time_sleep s i w =
  (add w [Sleep s],
   if (s <? 0)%Z then inl (Exception "sleep length must be non-negative")
   else if i then inl KeyboardInterrupt else inr tt).
Proof.
  unfold time_sleep, bind, emit, add. simpl.
  destruct (s <? 0)%Z; [reflexivity |]. now destruct i.
Qed.

(** The handlers of the two [except] clauses of the loop leave the store
    as it is. *)
Lemma iteration_store P env w :
  store (fst (iteration P env w)) = store (fst (attempt P env w)).
Proof.
  unfold iteration, try_catch.
  destruct (attempt P env w) as [w' [[msg |] | c]]; simpl; try reflexivity.
  unfold bind, log, emit. simpl. rewrite time_sleep_eq.
  destruct (_ <? 0)%Z; simpl; [reflexivity |].
  now destruct (sleep_interrupted env).
Qed.

Lemma time_sleep_frame id s i : steps (job_frame id) (time_sleep s i).
Proof. intros w. rewrite time_sleep_eq. split; simpl; auto. Qed.

#[export] Hint Resolve job_frame_preorder emit_frame log_frame fail_frame
  worker_run_frame time_sleep_frame update_job_frame : steps.

Lemma dispatch_frame env j : steps (job_frame (job_id j)) (dispatch env j).
Proof.
  unfold dispatch.
  destruct (registry_get JOB_HANDLERS (job_type j)); split_steps.
Qed.

(** ** Jobs that nobody claims *)

Lemma orphans_kept_refl jobs : orphans_kept jobs jobs.
Proof. split; auto. Qed.

Lemma orphans_kept_trans a b c :
  orphans_kept a b -> orphans_kept b c -> orphans_kept a c.
Proof. intros [I1 K1] [I2 K2]. split; [congruence | eauto]. Qed.

Lemma NoDup_lookup_ids (jobs : list job) (i k : nat) a b :
  NoDup (map job_id jobs) -> jobs !! i = Some a -> jobs !! k = Some b ->
  job_id a = job_id b -> i = k.
Proof.
  intros ND Hi Hk E.
  apply (NoDup_lookup (map job_id jobs) i k (job_id a)); [exact ND | |].
  - now rewrite list_lookup_fmap, Hi.
  - rewrite list_lookup_fmap, Hk. simpl. now rewrite E.
Qed.

Lemma attempt_keeps_orphans P env w :
  NoDup (map job_id (bulk_jobs (store w))) ->
  orphans_kept (bulk_jobs (store w)) (bulk_jobs (store (fst (attempt P env w)))).
Proof.
  intros ND. rewrite attempt_eq.
  destruct (claim_fault env); [apply orphans_kept_refl |].
  destruct (fst (claim_next_pending (now env) (bulk_jobs (store w)))) as [j' |] eqn:C.
  - destruct (claim_some _ _ _ C) as (k & j & Hk & Hp & Hk' & Hj').
    destruct (dispatch_frame env j' (claimed_world env w)) as [I F].
    simpl in I, F. split.
    + rewrite I. apply claim_ids.
    + intros i j0 Hi Hr. apply F.
      * apply claim_keeps; [assumption | congruence].
      * intros E. assert (i = k) as ->.
        { eapply NoDup_lookup_ids; eauto. rewrite E, Hj'. reflexivity. }
        congruence.
  - unfold bind, claimed_world. rewrite time_sleep_eq, (claim_none _ _ C).
    destruct (_ <? 0)%Z; [apply orphans_kept_refl |].
    destruct (sleep_interrupted env); apply orphans_kept_refl.
Qed.

Lemma loop_keeps_orphans P script w :
  NoDup (map job_id (bulk_jobs (store w))) ->
  orphans_kept (bulk_jobs (store w)) (bulk_jobs (store (fst (loop P script w)))).
Proof.
  revert w. induction script as [| env rest IH]; intros w ND; simpl.
  - apply orphans_kept_refl.
  - pose proof (attempt_keeps_orphans P env w ND) as K.
    rewrite <- iteration_store in K. unfold bind.
    destruct (iteration P env w) as [w' [e | []]]; simpl in *; try assumption.
    eapply orphans_kept_trans; [exact K |].
    apply IH. destruct K as [I _]. now rewrite I.
Qed.

(** ** The sweep at startup *)

Lemma main_eq P url fault script w :
  main P url fault script w
  = (recover_orphaned_jobs fault ;;; loop P script) (add w (banner P url)).
Proof.
  unfold main, banner, add, log, emit.
  unfold bind at 1 2 3 4. simpl. now rewrite <- !app_assoc.
Qed.

Lemma recover_applied w :
  recover_orphaned_jobs None w
  = (World (with_jobs (store w)
              (update_where is_running reset_patch (bulk_jobs (store w))))
           (trace w ++ RecoverCall :: recovered_log (bulk_jobs (store w))),
     inr tt).
Proof.
  unfold recover_orphaned_jobs, recovered_log, try_except, bind, emit, faulty,
    get_store, put_store, ret, log, emit. simpl.
  destruct (0 <? _)%nat; simpl; [now rewrite <- app_assoc | reflexivity].
Qed.

Lemma recover_failed msg w :
  recover_orphaned_jobs (Some (Exception msg)) w
  = (add w [RecoverCall; recovery_warning msg], inr tt).
Proof.
  unfold recover_orphaned_jobs, try_except, bind, emit, faulty, raise, log, emit, add.
  simpl. now rewrite <- app_assoc.
Qed.

Lemma recover_interrupted w :
  recover_orphaned_jobs (Some KeyboardInterrupt) w
  = (add w [RecoverCall], inl KeyboardInterrupt).
Proof. reflexivity. Qed.

(** C1, as the code has it: [main] makes the recovery call exactly once,
    after its banner and before everything the loop does, whatever the call
    meets; and when the recovery update does not raise, every job that is
    running at startup is pending, without start time and with an empty
    progress map, when the loop is entered. *)
Theorem startup_sweep P url fault script w :
  (exists t,
     trace (fst (main P url fault script w))
     = trace w ++ banner P url ++ RecoverCall :: t
     /\ Forall not_recover t)
  /\ (fault = None ->
      orphans_reset w (swept P url fault w)
      /\ main P url fault script w = loop P script (swept P url fault w)).
Proof.
  split.
  - rewrite main_eq. unfold bind.
    destruct fault as [[msg |] |].
    + rewrite recover_failed.
      destruct (loop_no_recover P script (add (add w (banner P url))
                  [RecoverCall; recovery_warning msg])) as [t [E F]].
      exists (recovery_warning msg :: t). split.
      * rewrite E. simpl. now rewrite <- !app_assoc.
      * constructor; [discriminate | assumption].
    + rewrite recover_interrupted. exists []. split; [| constructor].
      simpl. now rewrite <- app_assoc.
    + rewrite recover_applied.
      match goal with |- context [loop P script ?w1] =>
        destruct (loop_no_recover P script w1) as [t [E F]] end.
      exists (recovered_log (bulk_jobs (store w)) ++ t). split.
      * rewrite E. simpl. now rewrite <- !app_assoc.
      * apply Forall_app. split; [| assumption].
        unfold recovered_log. destruct (0 <? _)%nat; repeat constructor.
        discriminate.
  - intros ->. unfold swept. rewrite !main_eq. unfold bind.
    rewrite recover_applied. cbn -[update_where]. split; [| reflexivity].
    intros i j Hi Hr. cbn -[update_where].
    rewrite update_where_lookup, Hi. simpl.
    unfold is_running. rewrite Hr. simpl. eexists. now repeat split.
Qed.

(** C1 at a store with one orphan: after the sweep it is pending again. *)
Lemma startup_sweep_witness :
  orphans_reset sample_world (swept 5 None None sample_world).
Proof.
  exact (proj1 (proj2 (startup_sweep 5 None None [] sample_world) eq_refl)).
Defined.

(** C1 as it is stated fails: when the recovery update raises, the job that
    was running at startup is still running when the loop is entered. *)
Lemma startup_sweep_counterexample :
  ~ (forall P url fault w, orphans_reset w (swept P url fault w)).
Proof.
  intros H.
  destruct (H 5%Z None (Some (Exception "connection refused")) sample_world
              0%nat orphan eq_refl eq_refl) as (j' & Hj' & _ & Hs & _).
  vm_compute in Hj'. injection Hj' as <-. discriminate Hs.
Qed.

(** C10: when the recovery update raises an exception, [main] logs the
    warning and enters the loop with the store as it found it; the loop makes
    no recovery call, and after any number of passes every job that was
    running at startup is the row it was, still running. *)
Theorem failed_sweep_not_retried P url msg script w :
  NoDup (map job_id (bulk_jobs (store w))) ->
  let w1 := add w (banner P url ++ [RecoverCall; recovery_warning msg]) in
  main P url (Some (Exception msg)) script w = loop P script w1
  /\ (exists t, trace (fst (loop P script w1)) = trace w1 ++ t
                /\ Forall not_recover t)
  /\ (forall (i : nat) j,
        bulk_jobs (store w) !! i = Some j -> job_status j = running ->
        bulk_jobs (store (fst (loop P script w1))) !! i = Some j).
Proof.
  intros ND w1. split; [| split].
  - rewrite main_eq. unfold bind. rewrite recover_failed, add_add. reflexivity.
  - apply loop_no_recover.
  - apply (loop_keeps_orphans P script w1 ND).
Qed.

Lemma sample_ids_distinct : NoDup (map job_id (bulk_jobs (store sample_world))).
Proof.
  simpl. apply NoDup_cons. split; [| apply NoDup_singleton].
  intros H. apply list_elem_of_singleton in H. discriminate H.
Defined.

(** C10 at a store with one orphan: after a pass of the loop that follows
    the failed sweep, the orphan is the running row it was. *)
Lemma failed_sweep_witness :
  bulk_jobs (store (fst (loop 5 [sample_env]
    (add sample_world (banner 5 None
       ++ [RecoverCall; recovery_warning "connection refused"]))))) !! 0%nat
  = Some orphan.
Proof.
  exact (proj2 (proj2 (failed_sweep_not_retried 5 None "connection refused"
                         [sample_env] sample_world sample_ids_distinct))
           0%nat orphan eq_refl eq_refl).
Defined.

(** ** A job of an unknown type *)

Lemma prefix_refl s : String.prefix s s = true.
Proof.
  induction s as [| a s IH]; simpl; [reflexivity |].
  destruct (ascii_dec a a); [exact IH | congruence].
Qed.

Lemma contains_refl s : contains s s = true.
Proof.
  destruct s as [| a s]; [reflexivity |].
  change (contains (String a s) (String a s))
    with (String.prefix (String a s) (String a s) || contains (String a s) s).
  now rewrite prefix_refl.
Qed.

(** A string occurs in every string it ends. *)
Lemma contains_suffix p s : contains s (p +:+ s) = true.
Proof.
  induction p as [| a p IH].
  - apply contains_refl.
  - change (contains s (String a p +:+ s))
      with (String.prefix s (String a (p +:+ s)) || contains s (p +:+ s)).
    rewrite IH. apply orb_true_r.
Qed.

Lemma dispatch_unknown env j w :
  registry_get JOB_HANDLERS (job_type j) = None ->
  let error := "Unknown job type: " +:+ job_type j in
  let w0 := add w [claimed_log j; Log ERROR error; MarkFailedCall (job_id j) error] in
  dispatch env j w =
  match mark_failed_fault env with
  | Some e => (w0, inl e)
  | None => (World (with_jobs (store w)
                      (update_where (has_id (job_id j)) (failed_patch error)
                                    (bulk_jobs (store w))))
                   (trace w0), inr Continue)
  end.
Proof.
  intros H. unfold dispatch. rewrite H.
  unfold bind, log, emit, faulty, update_job, get_store, put_store, raise, ret, add.
  simpl. rewrite <- !app_assoc. simpl.
  destruct (mark_failed_fault env); reflexivity.
Qed.

Lemma iteration_continue P env w w' :
  attempt P env w = (w', inr Continue) -> iteration P env w = (w', inr Continue).
Proof. intros H. unfold iteration. now apply try_catch_inr. Qed.

Lemma loop_continue P env rest w w' :
  iteration P env w = (w', inr Continue) ->
  loop P (env :: rest) w = loop P rest w'.
Proof. intros H. simpl. unfold bind. now rewrite H. Qed.

Lemma attempt_unknown P env w j :
  claims env w j ->
  registry_get JOB_HANDLERS (job_type j) = None ->
  mark_failed_fault env = None ->
  let error := "Unknown job type: " +:+ job_type j in
  attempt P env w =
  (World (with_jobs (store w)
            (update_where (has_id (job_id j)) (failed_patch error)
               (snd (claim_next_pending (now env) (bulk_jobs (store w))))))
         (trace w ++ [ClaimCall; claimed_log j; Log ERROR error;
                      MarkFailedCall (job_id j) error]),
   inr Continue).
Proof.
  intros [Hf Hc] Hr Hm error. rewrite attempt_eq, Hf, Hc.
  rewrite dispatch_unknown by assumption. rewrite Hm.
  unfold claimed_world, add. simpl. now rewrite <- app_assoc.
Qed.




(** ** A handler that raises *)

Lemma dispatch_registered env j cls w :
  registry_get JOB_HANDLERS (job_type j) = Some cls ->
  dispatch env j w =
  (try_except (worker_run cls env j)
     (fun msg =>
        log ERROR ("Job " +:+ job_id j +:+ " failed: " +:+ msg) ;;;
        log ERROR (traceback env) ;;;
        Base.fail j msg) ;;;
   ret Continue) (add w [claimed_log j; Construct (job_id j)]).
Proof.
  intros H. unfold dispatch. rewrite H.
  unfold log, emit, add. unfold bind at 1 2. simpl.
  now rewrite <- app_assoc.
Qed.

Lemma attempt_registered P env w j cls :
  claims env w j ->
  registry_get JOB_HANDLERS (job_type j) = Some cls ->
  attempt P env w =
  (try_except (worker_run cls env j)
     (fun msg =>
        log ERROR ("Job " +:+ job_id j +:+ " failed: " +:+ msg) ;;;
        log ERROR (traceback env) ;;;
        Base.fail j msg) ;;;
   ret Continue) (handler_world env w j).
Proof.
  intros [Hf Hc] Hr. rewrite attempt_eq, Hf, Hc.
  now apply dispatch_registered.
Qed.

(** A run that returns leaves the pass with the world it made. *)
Lemma iteration_handler_returns P env w j cls wh :
  claims env w j ->
  registry_get JOB_HANDLERS (job_type j) = Some cls ->
  worker_run cls env j (handler_world env w j) = (wh, inr tt) ->
  iteration P env w = (wh, inr Continue).
Proof.
  intros Hc Hr Hw. apply iteration_continue.
  rewrite (attempt_registered P env w j cls Hc Hr).
  unfold bind. now rewrite (try_except_inr _ _ _ _ _ Hw).
Qed.

Lemma fail_eq j msg w :
  Base.fail j msg w =
  (World (with_jobs (store w)
            (update_where (has_id (job_id j)) (failed_patch msg)
                          (bulk_jobs (store w))))
         (trace w ++ [FailCall (job_id j) msg]), inr tt).
Proof. reflexivity. Qed.

Lemma failed_patch_marks id msg jobs :
  forall (i : nat) j,
    update_where (has_id id) (failed_patch msg) jobs !! i = Some j ->
    job_id j = id -> job_status j = failed /\ job_error j = Some msg.
Proof.
  intros i j. rewrite update_where_lookup.
  destruct (jobs !! i) as [j0 |]; simpl; [| discriminate].
  destruct (has_id id j0) eqn:Hid; intros [= <-] Hj.
  - split; reflexivity.
  - unfold has_id in Hid. apply String.eqb_neq in Hid. contradiction.
Qed.

Lemma has_job_frame id id' w w' : job_frame id' w w' -> has_job id w -> has_job id w'.
Proof.
  intros [I _] (i & j & Hi & Hj).
  assert (map job_id (bulk_jobs (store w')) !! i = Some id) as H.
  { rewrite I, list_lookup_fmap, Hi. simpl. now rewrite Hj. }
  rewrite list_lookup_fmap in H.
  destruct (bulk_jobs (store w') !! i) as [j' |] eqn:E; simpl in H; [| discriminate].
  exists i, j'. split; [exact E | congruence].
Qed.

Lemma claimed_has_job env w j : claims env w j -> has_job (job_id j) (claimed_world env w).
Proof.
  intros [_ Hc]. destruct (claim_some _ _ _ Hc) as (k & j0 & _ & _ & Hk & _).
  exists k, j. split; [exact Hk | reflexivity].
Qed.

(** C2: when the run of the handler of a claimed job raises an exception,
    the loop catches it, reports it and marks the job as failed with the
    message of the exception, and goes on with the next pass; a job claimed
    in a later pass, whose handler returns, leaves that pass with the world
    its handler made, and the loop goes on. *)
Theorem handler_failure_contained P env w j cls msg wh :
  claims env w j ->
  registry_get JOB_HANDLERS (job_type j) = Some cls ->
  worker_run cls env j (handler_world env w j) = (wh, inl (Exception msg)) ->
  let w' := fst (iteration P env w) in
  snd (iteration P env w) = inr Continue
  /\ w' = World (store w') (trace wh ++ failure_report env j msg)
  /\ failed_with (job_id j) msg w'
  /\ (forall rest, loop P (env :: rest) w = loop P rest w')
  /\ (forall env2 j2 cls2 wh2 rest,
        claims env2 w' j2 ->
        registry_get JOB_HANDLERS (job_type j2) = Some cls2 ->
        worker_run cls2 env2 j2 (handler_world env2 w' j2) = (wh2, inr tt) ->
        iteration P env2 w' = (wh2, inr Continue)
        /\ loop P (env :: env2 :: rest) w = loop P rest wh2).
Proof.
  intros Hc Hr Hw w'.
  assert (iteration P env w =
          (World (with_jobs (store wh)
                    (update_where (has_id (job_id j)) (failed_patch msg)
                                  (bulk_jobs (store wh))))
                 (trace wh ++ failure_report env j msg), inr Continue)) as E.
  { apply iteration_continue.
    rewrite (attempt_registered P env w j cls Hc Hr).
    unfold bind at 1. rewrite (try_except_exception _ _ _ _ _ Hw).
    unfold bind, log, emit. simpl. now rewrite <- !app_assoc. }
  subst w'. rewrite E. unfold failed_with. cbn -[update_where loop iteration].
  split; [reflexivity |]. split; [reflexivity |]. split; [| split].
  - split; [| apply failed_patch_marks].
    assert (has_job (job_id j) wh) as (i & j0 & Hi & Hj).
    { pose proof (worker_run_frame cls env j (handler_world env w j)) as F.
      rewrite Hw in F. eapply has_job_frame; [exact F |].
      destruct (claimed_has_job env w j Hc) as (i & j0 & Hi & Hj).
      exists i, j0. split; assumption. }
    exists i. eexists. rewrite update_where_lookup, Hi. simpl.
    unfold has_id. rewrite Hj, String.eqb_refl. split; [reflexivity | exact Hj].
  - intros rest. now apply loop_continue.
  - intros env2 j2 cls2 wh2 rest Hc2 Hr2 Hw2.
    pose proof (iteration_handler_returns P env2 _ j2 cls2 wh2 Hc2 Hr2 Hw2) as E2.
    split; [exact E2 |].
    rewrite (loop_continue P env (env2 :: rest) w _ E).
    now apply loop_continue.
Qed.

(** C2 at a queue of two jobs: the job whose handler raised is failed with
    the message of the exception. *)
Lemma handler_failure_witness :
  failed_with "job-a" "division by zero" (fst (iteration 5 raising_env two_jobs)).
Proof.
  exact (proj1 (proj2 (proj2
    (handler_failure_contained 5 raising_env two_jobs claimed_a CleanLeadsWorker
       "division by zero"
       (fst (worker_run CleanLeadsWorker raising_env claimed_a
               (handler_world raising_env two_jobs claimed_a)))
       (conj eq_refl eq_refl) eq_refl eq_refl)))).
Defined.

(** The same queue after two passes: the first job is failed, the second is
    done, and the process is still in its loop. *)
Example two_jobs_run :
  let r := loop 5 [raising_env; completing_env] two_jobs in
  map job_status (bulk_jobs (store (fst r))) = [failed; done]
  /\ map job_error (bulk_jobs (store (fst r))) = [Some "division by zero"; None]
  /\ snd r = inr Polling.
Proof. vm_compute. repeat split. Qed.

(** ** Interrupts *)

Lemma calm_ret {A} (a : A) : calm (ret a).
Proof. intros w. discriminate. Qed.

Lemma calm_raise {A} msg : calm (@raise A (Exception msg)).
Proof. intros w. discriminate. Qed.

Lemma calm_faulty f : f <> Some KeyboardInterrupt -> calm (faulty f).
Proof. intros H w. destruct f as [[msg |] |]; simpl; congruence. Qed.

Lemma calm_get_store : calm get_store.
Proof. intros w. discriminate. Qed.

Lemma calm_put_store d : calm (put_store d).
Proof. intros w. discriminate. Qed.

Lemma calm_emit e : calm (emit e).
Proof. intros w. discriminate. Qed.

Lemma calm_log l m : calm (log l m).
Proof. apply calm_emit. Qed.

Lemma calm_bind {A B} (c : M A) (k : A -> M B) :
  calm c -> (forall a, calm (k a)) -> calm (bind c k).
Proof.
  intros Hc Hk w. unfold bind. specialize (Hc w).
  destruct (c w) as [w' [e | a]]; simpl in *; [| apply Hk].
  intros [= ->]. now apply Hc.
Qed.

Lemma calm_try_except {A} (c : M A) h :
  calm c -> (forall msg, calm (h msg)) -> calm (try_except c h).
Proof.
  intros Hc Hh w. unfold try_except. specialize (Hc w).
  destruct (c w) as [w' [[msg |] | a]]; simpl in *;
    [apply Hh | assumption | discriminate].
Qed.

Create HintDb calm.
#[export] Hint Resolve calm_ret calm_raise calm_faulty calm_get_store
  calm_put_store calm_emit calm_log : calm.

Ltac split_calm :=
  repeat first
    [ solve [auto with calm]
    | apply calm_bind; [| intros ?]
    | apply calm_try_except; [| intros ?]
    | match goal with
      | |- calm (if ?b then _ else _) => destruct b
      | |- calm (match ?x with _ => _ end) => destruct x eqn:?
      end ].

Lemma calm_update_job id patch : calm (update_job id patch).
Proof. unfold update_job. split_calm. Qed.

#[export] Hint Resolve calm_update_job : calm.

Lemma calm_update_progress self p t x : calm (Base.update_progress self p t x).
Proof. unfold Base.update_progress. split_calm. Qed.

Lemma calm_complete self x : calm (Base.complete self x).
Proof. unfold Base.complete. split_calm. Qed.

Lemma calm_fail self m : calm (Base.fail self m).
Proof. unfold Base.fail. split_calm. Qed.

Lemma calm_update_lead id u : calm (Base.update_lead id u).
Proof. unfold Base.update_lead. split_calm. Qed.

Lemma calm_get_api_key k : calm (Base.get_api_key k).
Proof. unfold Base.get_api_key. split_calm. Qed.

Lemma calm_time_sleep s : calm (time_sleep s false).
Proof. intros w. rewrite time_sleep_eq. simpl. now destruct (s <? 0)%Z. Qed.

#[export] Hint Resolve calm_update_progress calm_complete calm_fail
  calm_update_lead calm_get_api_key calm_time_sleep : calm.

Lemma scrape_settled e key website :
  FindEmails._scrape_contacts e key website <> inl KeyboardInterrupt.
Proof.
  unfold FindEmails._scrape_contacts.
  repeat (match goal with
          | |- context [match ?x with _ => _ end] => destruct x
          end; try discriminate).
Qed.

Lemma submit_all_settled e key batch :
  Forall settled (FindEmails.submit_all e key batch).
Proof.
  unfold FindEmails.submit_all. apply Forall_fmap, Forall_forall.
  intros l _. apply scrape_settled.
Qed.

Lemma calm_enrich_one f n : settled f -> calm (FindEmails.enrich_one f n).
Proof.
  intros H. unfold FindEmails.enrich_one. unfold settled in H.
  apply calm_try_except; [| intros msg; split_calm].
  destruct (FindEmails.fut_result f) as [[msg |] | [c |]];
    [apply calm_raise | congruence | |]; split_calm.
Qed.

Lemma calm_harvest self total cs p n :
  Forall settled cs -> calm (FindEmails.harvest self total cs p n).
Proof.
  intros H. revert p n. induction H as [| f rest Hf Hrest IH]; intros p n; simpl.
  - split_calm.
  - pose proof (calm_enrich_one f). split_calm.
Qed.

Lemma calm_find_emails e self :
  FindEmails.fetch_fault e <> Some KeyboardInterrupt -> fair_pool e ->
  calm (FindEmails.run e self).
Proof.
  intros Hf Hp. unfold FindEmails.run.
  assert (forall key batch total p n,
            calm (FindEmails.harvest self total
                    (FindEmails.as_completed e (FindEmails.submit_all e key batch))
                    p n)) as Hh.
  { intros. apply calm_harvest. rewrite (Hp _). apply submit_all_settled. }
  split_calm.
Qed.

Lemma calm_process_all e key self total ls p n :
  (forall url k, FindDecisionMakers._find_from_website e url k
                 <> inl KeyboardInterrupt) ->
  calm (FindDecisionMakers.process_all e key self total ls p n).
Proof.
  intros H. revert p n. induction ls as [| l rest IH]; intros p n; simpl.
  - split_calm.
  - apply calm_bind; [| intros a; split_calm].
    unfold FindDecisionMakers.process_lead.
    destruct (website_of l); try apply calm_raise.
    destruct (FindDecisionMakers._find_from_website e _ key) as [[msg |] | o] eqn:E.
    + apply calm_raise.
    + now apply H in E.
    + split_calm.
Qed.

Lemma calm_find_decision_makers e self :
  FindDecisionMakers.fetch_fault e <> Some KeyboardInterrupt ->
  (forall url k, FindDecisionMakers._find_from_website e url k
                 <> inl KeyboardInterrupt) ->
  calm (FindDecisionMakers.run e self).
Proof.
  intros Hf Ho. unfold FindDecisionMakers.run.
  pose proof (fun key total ls p n =>
                calm_process_all e key self total ls p n Ho) as Hp.
  split_calm.
Qed.

Lemma calm_replay self ops o :
  o <> Some KeyboardInterrupt -> calm (replay self ops o).
Proof.
  intros H. induction ops as [| op rest IH]; simpl; [split_calm |].
  apply calm_bind; [| intros _; exact IH]. destruct op; simpl; auto with calm.
Qed.

Lemma calm_worker_run cls env self : quiet env -> calm (worker_run cls env self).
Proof.
  intros (_ & _ & _ & Ha & Hf & Hp & Hd & Ho).
  destruct cls; simpl;
    auto using calm_replay, calm_find_emails, calm_find_decision_makers.
Qed.

Lemma calm_attempt P env : quiet env -> calm (attempt P env).
Proof.
  intros Q. pose proof (calm_worker_run) as Hw.
  destruct Q as (Hc & Hs & Hm & Q').
  assert (quiet env) as Q by (repeat split; tauto || apply Q').
  unfold attempt, dispatch. rewrite Hs.
  specialize (fun cls self => Hw cls env self Q).
  split_calm.
Qed.

(** ** The loop goes on *)

Lemma only_continue_ret : only_continue (ret Continue).
Proof. intros w w' x [= _ <-]. reflexivity. Qed.

Lemma only_continue_bind {A} (c : M A) k :
  (forall a, only_continue (k a)) -> only_continue (bind c k).
Proof.
  intros H w w' x. unfold bind.
  destruct (c w) as [w1 [e | a]]; [discriminate | apply H].
Qed.

Ltac continues :=
  repeat first
    [ apply only_continue_ret
    | apply only_continue_bind; intros ?
    | match goal with
      | |- only_continue (if ?b then _ else _) => destruct b
      | |- only_continue (match ?x with _ => _ end) => destruct x
      end ].

Lemma attempt_only_continue P env : only_continue (attempt P env).
Proof. unfold attempt, dispatch. continues. Qed.

Lemma iteration_backoff P env w w' msg :
  (0 <= P)%Z -> sleep_interrupted env = false ->
  attempt P env w = (w', inl (Exception msg)) ->
  iteration P env w = (add w' (backoff P env msg), inr Continue).
Proof.
  intros HP Hs H. unfold iteration. rewrite (try_catch_inl _ _ _ _ _ H).
  unfold bind, log, emit. simpl. rewrite time_sleep_eq, Hs.
  destruct (P * 2 <? 0)%Z eqn:E; [apply Z.ltb_lt in E; lia |].
  unfold add, backoff. simpl. now rewrite <- !app_assoc.
Qed.

Lemma iteration_interrupt P env w w' :
  attempt P env w = (w', inl KeyboardInterrupt) ->
  iteration P env w
  = (add w' [Log INFO "Worker shutting down (SIGINT)"], inr Break).
Proof.
  intros H. unfold iteration. now rewrite (try_catch_inl _ _ _ _ _ H).
Qed.

Lemma quiet_iteration_continues P env w :
  (0 <= P)%Z -> quiet env -> snd (iteration P env w) = inr Continue.
Proof.
  intros HP Q. pose proof (calm_attempt P env Q w) as C.
  destruct (attempt P env w) as [w' [[msg |] | c]] eqn:E; simpl in C.
  - rewrite (iteration_backoff P env w w' msg HP); [reflexivity | apply Q | exact E].
  - congruence.
  - rewrite (attempt_only_continue P env w w' c E) in E.
    now rewrite (iteration_continue P env w w' E).
Qed.

Lemma sample_env_quiet : quiet sample_env.
Proof.
  repeat split; try discriminate.
  intros l. simpl. reflexivity.
Defined.




(** ** The batch of find_emails *)

Lemma progress_calls_app t1 t2 :
  progress_calls (t1 ++ t2) = progress_calls t1 ++ progress_calls t2.
Proof. apply omap_app. Qed.

Lemma lead_updates_app t1 t2 :
  lead_updates (t1 ++ t2) = lead_updates t1 ++ lead_updates t2.
Proof. apply omap_app. Qed.

Lemma completions_app t1 t2 :
  completions (t1 ++ t2) = completions t1 ++ completions t2.
Proof. apply omap_app. Qed.

Lemma has_website_truthy l : has_website l = true -> truthy (website_of l) = true.
Proof.
  unfold has_website, website_of, py_or, truthy_opt.
  destruct (lead_fields l !! "company_website") as [v |].
  - destruct (truthy v) eqn:E; [auto |].
    destruct (lead_fields l !! "domain"); [auto | discriminate].
  - destruct (lead_fields l !! "domain"); [auto | discriminate].
Qed.

Lemma filter_all {A} (f : A -> bool) l :
  Forall (fun x => f x = true) l -> List.filter f l = l.
Proof.
  induction 1 as [| x l Hx _ IH]; simpl; [reflexivity |]. now rewrite Hx, IH.
Qed.

Lemma Forall_filter_true {A} (f : A -> bool) l :
  Forall (fun x => f x = true) (List.filter f l).
Proof. apply Forall_forall. intros x Hx. apply list_elem_of_In, filter_In in Hx. tauto. Qed.

(** Every lead of the batch is submitted: the second test of the web site
    never skips one. *)
Lemma submit_all_batch e key fetched :
  let batch := List.filter has_website fetched in
  FindEmails.submit_all e key batch
  = map (fun l => FindEmails.Future l
                    (FindEmails._scrape_contacts e key (website_of l))) batch.
Proof.
  intros batch. unfold FindEmails.submit_all. f_equal. apply filter_all.
  eapply Forall_impl; [apply Forall_filter_true |].
  intros l. apply has_website_truthy.
Qed.

Lemma enrich_one_eq f n w :
  settled f ->
  FindEmails.enrich_one f n w =
  match outcome_of f with
  | Some (id, u) =>
      (World (with_leads (store w) (Base.update_lead_rows id u (leads (store w))))
             (trace w ++ [LeadUpdateCall id u]), inr (S n))
  | None =>
      match FindEmails.fut_result f with
      | inl (Exception msg) =>
          (add w [Log WARNING
                    ("Error enriching "
                     +:+ py_str (default (FStr "?")
                                   (lead_fields (FindEmails.fut_lead f) !! "company_name"))
                     +:+ ": " +:+ msg)], inr n)
      | _ => (w, inr n)
      end
  end.
Proof.
  intros H. unfold settled in H. unfold FindEmails.enrich_one, outcome_of, try_except.
  destruct (FindEmails.fut_result f) as [[msg |] | [c |]]; try reflexivity;
    [congruence |].
  destruct (FindEmails.contacts_truthy c); [| reflexivity].
  destruct (updates_truthy (FindEmails._map_contacts c)); reflexivity.
Qed.

Lemma cadence_step step p len :
  cadence step p (S len)
  = (if (S p mod step =? 0)%nat then [S p] else []) ++ cadence step (S p) len.
Proof.
  unfold cadence. simpl seq. simpl List.filter.
  now destruct (S p mod step =? 0)%nat.
Qed.

Lemma update_progress_eq self p total x w :
  Base.update_progress self p total x w =
  (World (with_jobs (store w)
            (update_where (has_id (job_id self))
               (fun j => set_job j (job_status j)
                           (Base.progress_snapshot p total x)
                           (job_started_at j) (job_result j) (job_error j))
               (bulk_jobs (store w))))
         (trace w ++ [ProgressCall (job_id self) p total x]), inr tt).
Proof. reflexivity. Qed.

Lemma complete_eq self payload w :
  Base.complete self payload w =
  (World (with_jobs (store w)
            (update_where (has_id (job_id self))
               (fun j => set_job j done (job_progress j) (job_started_at j)
                           (Some payload) (job_error j))
               (bulk_jobs (store w))))
         (trace w ++ [CompleteCall (job_id self) payload]), inr tt).
Proof. reflexivity. Qed.

Lemma omap_cons_app {A B} (g : A -> option B) x l :
  omap g (x :: l) = option_list (g x) ++ omap g l.
Proof. simpl. destruct (g x); reflexivity. Qed.

(** The loop over the completed tasks counts every task, applies the update
    of every task that yields one, and reports at every tenth completion. *)
Lemma harvest_spec self total cs :
  Forall settled cs ->
  forall p n w,
  exists w' t,
    FindEmails.harvest self total cs p n w
    = (w', inr (p + length cs, n + length (omap outcome_of cs)))%nat
    /\ trace w' = trace w ++ t
    /\ progress_calls t = map (fun k => (k, total)) (cadence 10 p (length cs))
    /\ lead_updates t = omap outcome_of cs
    /\ completions t = [].
Proof.
  induction 1 as [| f rest Hf _ IH]; intros p n w.
  - exists w, []. simpl. rewrite app_nil_r, !Nat.add_0_r. now repeat split.
  - cbn [FindEmails.harvest]. unfold bind at 1.
    rewrite (enrich_one_eq f n w Hf).
    set (tu := match outcome_of f with
               | Some (id, u) => [LeadUpdateCall id u]
               | None => match FindEmails.fut_result f with
                         | inl (Exception msg) =>
                             [Log WARNING
                                ("Error enriching "
                                 +:+ py_str (default (FStr "?")
                                      (lead_fields (FindEmails.fut_lead f)
                                         !! "company_name"))
                                 +:+ ": " +:+ msg)]
                         | _ => []
                         end
               end).
    set (n1 := (n + length (option_list (outcome_of f)))%nat).
    assert (exists w1,
              (match outcome_of f with
               | Some (id, u) =>
                   (World (with_leads (store w)
                             (Base.update_lead_rows id u (leads (store w))))
                          (trace w ++ [LeadUpdateCall id u]), inr (S n))
               | None =>
                   match FindEmails.fut_result f with
                   | inl (Exception msg) =>
                       (add w [Log WARNING
                                 ("Error enriching "
                                  +:+ py_str (default (FStr "?")
                                       (lead_fields (FindEmails.fut_lead f)
                                          !! "company_name"))
                                  +:+ ": " +:+ msg)], inr n)
                   | _ => (w, inr n)
                   end
               end) = (w1, inr n1) /\ trace w1 = trace w ++ tu) as (w1 & -> & T1).
    { subst tu n1. destruct (outcome_of f) as [[id u] |]; simpl.
      - eexists. split; [rewrite Nat.add_1_r; reflexivity | reflexivity].
      - rewrite Nat.add_0_r.
        destruct (FindEmails.fut_result f) as [[msg |] | ?]; eexists;
          (split; [reflexivity |]); simpl; now rewrite ?app_nil_r. }
    assert (progress_calls tu = [] /\ completions tu = []
            /\ lead_updates tu = option_list (outcome_of f)) as (P1 & C1 & L1).
    { subst tu. destruct (outcome_of f) as [[id u] |]; [now repeat split |].
      destruct (FindEmails.fut_result f) as [[msg |] | ?]; now repeat split. }
    unfold bind at 1.
    destruct (S p mod 10 =? 0)%nat eqn:E.
    + rewrite update_progress_eq.
      match goal with |- context [FindEmails.harvest _ _ _ _ _ ?w2] =>
        destruct (IH (S p) n1 w2) as (w' & t & Hh & Ht & Hp & Hl & Hc) end.
      exists w', (tu ++ ProgressCall (job_id self) (S p) total
                          (FindEmails.enriched_counter n1) :: t).
      rewrite Hh, Ht. cbn [trace]. rewrite T1.
      cbn [length]. rewrite cadence_step, E. subst n1.
      rewrite !progress_calls_app, !lead_updates_app, !completions_app, P1, C1, L1.
      rewrite omap_cons_app, length_app.
      simpl progress_calls. simpl lead_updates.
      simpl completions. rewrite Hp, Hl, Hc.
      repeat split.
      * f_equal. f_equal. f_equal; lia.
      * now rewrite <- !app_assoc.
    + unfold ret at 1. cbv beta iota.
      destruct (IH (S p) n1 w1) as (w' & t & Hh & Ht & Hp & Hl & Hc).
      exists w', (tu ++ t).
      rewrite Hh, Ht. rewrite T1.
      cbn [length]. rewrite cadence_step, E. subst n1.
      rewrite !progress_calls_app, !lead_updates_app, !completions_app, P1, C1, L1.
      rewrite omap_cons_app, length_app. rewrite Hp, Hl, Hc.
      repeat split.
      * f_equal. f_equal. f_equal; lia.
      * now rewrite <- !app_assoc.
Qed.

Lemma get_api_key_eq name w :
  Base.get_api_key name w = (w, inr (api_keys (store w) !! name)).
Proof. reflexivity. Qed.

Lemma key_present key : key <> "" -> key_missing (Some key) = false.
Proof. intros H. simpl. now apply String.eqb_neq. Qed.

Lemma report_and_complete self p total x payload w :
  exists w',
    (Base.update_progress self p total x ;;; Base.complete self payload) w
    = (w', inr tt)
    /\ trace w' = trace w ++ [ProgressCall (job_id self) p total x;
                              CompleteCall (job_id self) payload]
    /\ done_with self (Base.progress_snapshot p total x) payload w'.
Proof.
  unfold bind. rewrite update_progress_eq, complete_eq. eexists.
  split; [reflexivity |]. split; [simpl; now rewrite <- app_assoc |].
  intros i j. cbn -[update_where]. rewrite !update_where_lookup.
  destruct (bulk_jobs (store w) !! i) as [j0 |]; simpl; [| discriminate].
  destruct (has_id (job_id self) j0) eqn:Hid; simpl; rewrite ?Hid.
  - unfold has_id. simpl. unfold has_id in Hid. rewrite Hid.
    intros [= <-] _. now repeat split.
  - intros [= <-] Hj. unfold has_id in Hid. apply String.eqb_neq in Hid.
    contradiction.
Qed.

(** A run of find_emails on a batch that is not empty. *)
Lemma find_emails_batch e self w key batch :
  has_key "openwebninja" key w ->
  FindEmails.fetch_fault e = None ->
  fair_pool e ->
  List.filter has_website (FindEmails.fetch self (store w)) = batch ->
  batch <> [] ->
  let N := length batch in
  let completed :=
    FindEmails.as_completed e (FindEmails.submit_all e key batch) in
  let n := length (omap outcome_of completed) in
  exists w' t,
    FindEmails.run e self w = (w', inr tt)
    /\ trace w' = trace w ++ t
    /\ progress_calls t
       = (0%nat, N) :: map (fun k => (k, N)) (cadence 10 0 N) ++ [(N, N)]
    /\ lead_updates t = omap outcome_of completed
    /\ completions t = [batch_result "enriched" N n N]
    /\ done_with self (Base.progress_snapshot N N (FindEmails.enriched_counter n))
                 (batch_result "enriched" N n N) w'.
Proof.
  intros [Hk Hne] Hf Hp Hb Hn N completed n.
  assert (length completed = N) as Hlen.
  { subst completed N. rewrite (Permutation_length (Hp _)).
    rewrite <- Hb, submit_all_batch. apply length_map. }
  assert (Forall settled completed) as Hs.
  { subst completed. rewrite (Hp _). apply submit_all_settled. }
  unfold FindEmails.run. unfold bind at 1. rewrite get_api_key_eq, Hk.
  rewrite (key_present key Hne). unfold bind at 1. unfold get_store at 1.
  unfold bind at 1. rewrite Hf. unfold faulty at 1. unfold ret at 1.
  cbv beta iota. cbn [store].
  unfold bind at 1. unfold log at 1, emit at 1. cbv beta iota.
  rewrite Hb. change (default "" (Some key)) with key. fold completed. fold N.
  destruct batch as [| l0 ls]; [contradiction |].
  unfold bind at 1. unfold log at 1, emit at 1. cbv beta iota.
  unfold bind at 1. rewrite update_progress_eq.
  unfold bind at 1.
  match goal with |- context [FindEmails.harvest _ _ _ _ _ ?w2] =>
    destruct (harvest_spec self N completed Hs 0 0 w2)
      as (w3 & t3 & Hh & Ht & Hpc & Hlu & Hco) end.
  rewrite Hh. cbn [fst snd]. rewrite Hlen. cbn [Nat.add]. fold n.
  destruct (report_and_complete self N N (FindEmails.enriched_counter n)
              (batch_result "enriched" N n N) w3) as (w' & Hr & Htr & Hd).
  exists w'. eexists. split; [exact Hr |].
  split; [| split; [| split; [| split]]]; [| | | | exact Hd].
  - rewrite Htr, Ht. cbn [trace]. rewrite <- !app_assoc. reflexivity.
  - rewrite !progress_calls_app, Hpc, Hlen. reflexivity.
  - rewrite !lead_updates_app, Hlu. simpl. now rewrite app_nil_r.
  - rewrite !completions_app, Hco. reflexivity.
Qed.

Lemma request_fails_no_update e key l :
  request_fails e l ->
  outcome_of (FindEmails.Future l
                (FindEmails._scrape_contacts e key (website_of l))) = None.
Proof.
  unfold request_fails, outcome_of, FindEmails._scrape_contacts, request_url.
  simpl. destruct (website_of l); try reflexivity.
  destruct (FindEmails.requests_get e _) as [msg | code body]; [reflexivity |].
  intros [H1 H2].
  apply Z.leb_le in H1. apply Z.ltb_lt in H2. now rewrite H1, H2.
Qed.

Lemma last_progress (a : nat * nat) l b : last (a :: l ++ [b]) = Some b.
Proof. rewrite app_comm_cons. apply last_snoc. Qed.

(** C4: in a run of find_emails on a batch of [N] leads, a lead whose
    operation fails (its request raises or times out, or the answer has an
    error status) does not stop the run: the run returns, its last progress
    report and its result count [N] processed leads, the failing lead gets no
    update, and the update of every lead whose operation yields one is
    applied, whatever the order in which the pool completes the tasks. *)
Theorem batch_failure_isolated e self w key (k : nat) lk :
  has_key "openwebninja" key w ->
  FindEmails.fetch_fault e = None ->
  fair_pool e ->
  let batch := List.filter has_website (FindEmails.fetch self (store w)) in
  let N := length batch in
  batch !! k = Some lk ->
  request_fails e lk ->
  exists w' t,
    FindEmails.run e self w = (w', inr tt)
    /\ trace w' = trace w ++ t
    /\ last (progress_calls t) = Some (N, N)
    /\ (exists n, completions t = [batch_result "enriched" N n N])
    /\ lead_updates t ≡ₚ omap outcome_of (FindEmails.submit_all e key batch)
    /\ outcome_of (FindEmails.Future lk
                     (FindEmails._scrape_contacts e key (website_of lk))) = None
    /\ forall (i : nat) l c,
         batch !! i = Some l ->
         FindEmails._scrape_contacts e key (website_of l) = inr (Some c) ->
         FindEmails.contacts_truthy c = true ->
         updates_truthy (FindEmails._map_contacts c) = true ->
         (lead_id l, FindEmails._map_contacts c) ∈ lead_updates t.
Proof.
  intros Hk Hf Hp batch N Hlk Hfail.
  assert (batch <> []) as Hne by (intros E; rewrite E in Hlk; discriminate).
  destruct (find_emails_batch e self w key batch Hk Hf Hp eq_refl Hne)
    as (w' & t & Hr & Ht & Hpc & Hlu & Hco & _).
  exists w', t. split; [exact Hr |]. split; [exact Ht |].
  split; [rewrite Hpc; apply last_progress |].
  split; [eexists; exact Hco |].
  split; [rewrite Hlu; now rewrite (Hp _) |].
  split; [now apply request_fails_no_update |].
  intros i l c Hi Hs Hc Hu. rewrite Hlu. apply list_elem_of_omap.
  exists (FindEmails.Future l (FindEmails._scrape_contacts e key (website_of l))).
  split.
  - rewrite (Hp _). subst batch. rewrite submit_all_batch.
    apply list_elem_of_fmap. exists l. split; [reflexivity |].
    eapply list_elem_of_lookup_2. exact Hi.
  - unfold outcome_of. simpl. now rewrite Hs, Hc, Hu.
Qed.

Lemma reversing_env_fair : fair_pool reversing_env.
Proof. intros l. simpl. apply reverse_Permutation. Defined.

Lemma leads_world_key table : has_key "openwebninja" "secret" (leads_world table).
Proof. split; [reflexivity | discriminate]. Defined.

(** C4 at five leads with a cap of three: the request for the second lead
    times out, and the run still returns and counts all three. *)
Lemma batch_failure_isolated_witness :
  exists w' t,
    FindEmails.run reversing_env emails_job (leads_world five_leads) = (w', inr tt)
    /\ last (progress_calls t) = Some (3%nat, 3%nat).
Proof.
  destruct (batch_failure_isolated reversing_env emails_job
              (leads_world five_leads) "secret" 1%nat
              (sample_lead "lead-2" "https://b.org")
              (leads_world_key five_leads) eq_refl reversing_env_fair
              eq_refl I) as (w' & t & Hr & _ & Hl & _).
  exists w', t. split; [exact Hr | exact Hl].
Defined.

(** ** The cap of the batch *)

Lemma find_emails_frame e self :
  steps (job_frame (job_id self)) (FindEmails.run e self).
Proof.
  apply find_emails_steps;
    auto using job_frame_preorder, log_frame, update_progress_frame,
               complete_frame, fail_frame, update_lead_frame.
Qed.

Lemma filter_length_le {A} (f : A -> bool) l :
  (length (List.filter f l) <= length l)%nat.
Proof.
  induction l as [| x l IH]; simpl; [lia |]. destruct (f x); simpl; lia.
Qed.

Lemma snapshot_total p total x :
  Base.progress_snapshot p total x !! "total" = Some (FNum (Z.of_nat total)).
Proof.
  unfold Base.progress_snapshot.
  rewrite lookup_insert_ne by discriminate. apply lookup_insert_eq.
Qed.

Lemma snapshot_processed p total x :
  Base.progress_snapshot p total x !! "processed" = Some (FNum (Z.of_nat p)).
Proof. unfold Base.progress_snapshot. apply lookup_insert_eq. Qed.

(** C7, as the code has it: the store applies the filters of the query and
    then the limit [max_leads] (100 when the configuration has none), and
    the handler keeps the fetched rows that have a web site or a domain, so
    that a batch never has more than [max_leads] leads.  A run on a batch
    that is not empty processes the whole batch and leaves its size as
    [progress.total]; that size is [max_leads] when at least [max_leads] rows
    pass the filters of the query and the fetched rows all have a web site or
    a domain. *)
Theorem batch_capped e self w key :
  let m := FindEmails.max_leads_of self in
  let fetched := FindEmails.fetch self (store w) in
  let batch := List.filter has_website fetched in
  let N := length batch in
  fetched = take m (passing self w)
  /\ (N <= m)%nat
  /\ (max_leads (job_config_of self) = None -> m = 100%nat)
  /\ (has_key "openwebninja" key w ->
      FindEmails.fetch_fault e = None ->
      fair_pool e ->
      has_job (job_id self) w ->
      batch <> [] ->
      exists w' t,
        FindEmails.run e self w = (w', inr tt)
        /\ trace w' = trace w ++ t
        /\ last (progress_calls t) = Some (N, N)
        /\ has_job (job_id self) w'
        /\ (forall (i : nat) j,
              bulk_jobs (store w') !! i = Some j -> job_id j = job_id self ->
              job_progress j !! "total" = Some (FNum (Z.of_nat N))
              /\ job_progress j !! "processed" = Some (FNum (Z.of_nat N)))
        /\ ((m <= length (passing self w))%nat ->
            Forall (fun l => has_website l = true) fetched ->
            N = m)).
Proof.
  intros m fetched batch N.
  assert (length fetched <= m)%nat as Hm.
  { subst fetched. unfold FindEmails.fetch, select_leads.
    rewrite length_take. fold m. lia. }
  split; [reflexivity |].
  split; [pose proof (filter_length_le has_website fetched); subst N batch; lia |].
  split; [intros H; subst m; unfold FindEmails.max_leads_of; now rewrite H |].
  intros Hk Hf Hp Hj Hne.
  destruct (find_emails_batch e self w key batch Hk Hf Hp eq_refl Hne)
    as (w' & t & Hr & Ht & Hpc & _ & _ & Hd).
  exists w', t. split; [exact Hr |]. split; [exact Ht |].
  split; [rewrite Hpc; apply last_progress |].
  split; [| split].
  - pose proof (find_emails_frame e self w) as F. rewrite Hr in F.
    eapply has_job_frame; [exact F | exact Hj].
  - intros i j Hi Hid. destruct (Hd i j Hi Hid) as (_ & -> & _).
    split; [apply snapshot_total | apply snapshot_processed].
  - intros Hlen Hall. subst N batch. rewrite (filter_all _ _ Hall).
    subst fetched. unfold FindEmails.fetch, select_leads.
    rewrite length_take. fold m. unfold passing in Hlen. lia.
Qed.

Lemma emails_job_in table : has_job "job-e" (leads_world table).
Proof. exists 0%nat, emails_job. split; reflexivity. Defined.

(** C7 at five eligible leads with [{"max_leads": 3}]: three leads are
    processed and [progress.total] is 3. *)
Lemma batch_capped_witness :
  exists w' t,
    FindEmails.run reversing_env emails_job (leads_world five_leads) = (w', inr tt)
    /\ last (progress_calls t) = Some (3%nat, 3%nat)
    /\ forall (i : nat) j,
         bulk_jobs (store w') !! i = Some j -> job_id j = "job-e" ->
         job_progress j !! "total" = Some (FNum 3).
Proof.
  destruct (proj2 (proj2 (proj2
              (batch_capped reversing_env emails_job (leads_world five_leads)
                 "secret")))
              (leads_world_key five_leads) eq_refl reversing_env_fair
              (emails_job_in five_leads) ltac:(discriminate))
    as (w' & t & Hr & _ & Hl & _ & Hp & _).
  exists w', t. split; [exact Hr |]. split; [exact Hl |].
  intros i j Hi Hj. exact (proj1 (Hp i j Hi Hj)).
Defined.

(** C7 as it is stated fails, whether a record counts as eligible when it
    passes the filters of the query and has a web site, or when it passes
    the filters of the query: a validated lead without web site and domain
    takes one of the three places of the limit, two leads are processed and
    [progress.total] is 2. *)
Lemma batch_capped_counterexample :
  ~ (forall e self w key,
       has_key "openwebninja" key w ->
       FindEmails.fetch_fault e = None -> fair_pool e ->
       max_leads (job_config_of self) = Some 3%nat ->
       length (List.filter has_website (passing self w)) = 5%nat ->
       exists w' t,
         FindEmails.run e self w = (w', inr tt)
         /\ trace w' = trace w ++ t
         /\ last (progress_calls t) = Some (3%nat, 3%nat))
  /\ ~ (forall e self w key,
          has_key "openwebninja" key w ->
          FindEmails.fetch_fault e = None -> fair_pool e ->
          max_leads (job_config_of self) = Some 3%nat ->
          length (passing self w) = 5%nat ->
          exists w' t,
            FindEmails.run e self w = (w', inr tt)
            /\ trace w' = trace w ++ t
            /\ last (progress_calls t) = Some (3%nat, 3%nat)).
Proof.
  split; intros H.
  - destruct (H reversing_env emails_job
                (leads_world (siteless_lead :: five_leads)) "secret"
                (leads_world_key _) eq_refl reversing_env_fair eq_refl eq_refl)
      as (w' & t & Hr & Ht & Hl).
    vm_compute in Hr. injection Hr as <-.
    vm_compute in Ht. subst t.
    vm_compute in Hl. discriminate Hl.
  - destruct (H reversing_env emails_job
                (leads_world (siteless_lead :: take 4 five_leads)) "secret"
                (leads_world_key _) eq_refl reversing_env_fair eq_refl eq_refl)
      as (w' & t & Hr & Ht & Hl).
    vm_compute in Hr. injection Hr as <-.
    vm_compute in Ht. subst t.
    vm_compute in Hl. discriminate Hl.
Qed.

(** ** The progress reports *)

Lemma cadence_bounds step p len k :
  k ∈ cadence step p len -> (p < k <= p + len)%nat.
Proof.
  unfold cadence. intros H. apply list_elem_of_In, filter_In in H.
  destruct H as [H _]. apply in_seq in H. lia.
Qed.

Lemma cadence_sorted step len : forall p, StronglySorted le (cadence step p len).
Proof.
  induction len as [| len IH]; intros p; [constructor |].
  rewrite cadence_step.
  assert (Forall (le (S p)) (cadence step (S p) len)) as F.
  { apply Forall_forall. intros k Hk. apply cadence_bounds in Hk. lia. }
  destruct (S p mod step =? 0)%nat; simpl; [| apply IH].
  constructor; [apply IH | exact F].
Qed.

Lemma reports_sorted step N : StronglySorted le (map fst (reports step N)).
Proof.
  unfold reports. cbn [map fst]. rewrite map_app, map_map. cbn [map fst].
  rewrite map_id.
  constructor.
  - apply StronglySorted_app. split; [| split].
    + intros a b Ha Hb. apply cadence_bounds in Ha.
      apply list_elem_of_singleton in Hb. subst b. lia.
    + apply cadence_sorted.
    + repeat constructor.
  - apply Forall_forall. intros k _. lia.
Qed.

Lemma reports_last step N : last (reports step N) = Some (N, N).
Proof. apply last_progress. Qed.

Lemma process_lead_spec e key l n w :
  crawl_returns e key l ->
  exists w1 t n1,
    FindDecisionMakers.process_lead e key l n w = (w1, inr n1)
    /\ trace w1 = trace w ++ t
    /\ progress_calls t = [] /\ completions t = [].
Proof.
  intros (site & r & Hs & Hr). unfold FindDecisionMakers.process_lead.
  rewrite Hs. fold (request_url site). rewrite Hr.
  destruct (FindDecisionMakers.dm_truthy r).
  - eexists. eexists. eexists. unfold bind, Base.update_lead, log, emit,
      get_store, put_store, ret. simpl. rewrite <- app_assoc.
    split; [reflexivity |]. split; [reflexivity |]. now split.
  - eexists. eexists. eexists. unfold bind, Base.update_lead, log, emit,
      get_store, put_store, ret. simpl.
    split; [reflexivity |]. split; [reflexivity |]. now split.
Qed.

(** The loop over the leads counts every lead and reports at every fifth. *)
Lemma process_all_spec e key self total ls :
  Forall (crawl_returns e key) ls ->
  forall p n w,
  exists w' t n',
    FindDecisionMakers.process_all e key self total ls p n w
    = (w', inr (p + length ls, n'))%nat
    /\ trace w' = trace w ++ t
    /\ progress_calls t = map (fun k => (k, total)) (cadence 5 p (length ls))
    /\ completions t = [].
Proof.
  induction 1 as [| l rest Hl _ IH]; intros p n w.
  - exists w, [], n. simpl. rewrite app_nil_r, Nat.add_0_r. now repeat split.
  - cbn [FindDecisionMakers.process_all length]. unfold bind at 1.
    destruct (process_lead_spec e key l n w Hl) as (w1 & t1 & n1 & -> & T1 & P1 & C1).
    unfold bind at 1. rewrite cadence_step.
    destruct (S p mod 5 =? 0)%nat eqn:E.
    + rewrite update_progress_eq.
      match goal with |- context [FindDecisionMakers.process_all _ _ _ _ _ _ _ ?w2] =>
        destruct (IH (S p) n1 w2) as (w' & t & n' & Hh & Ht & Hp & Hc) end.
      exists w', (t1 ++ ProgressCall (job_id self) (S p) total
                          (FindDecisionMakers.found_counter n1) :: t), n'.
      rewrite Hh, Ht. cbn [trace]. rewrite T1.
      rewrite !progress_calls_app, !completions_app, P1, C1.
      simpl progress_calls. simpl completions. rewrite Hp, Hc.
      repeat split.
      * f_equal. f_equal. f_equal. lia.
      * now rewrite <- !app_assoc.
    + unfold ret at 1. cbv beta iota.
      destruct (IH (S p) n1 w1) as (w' & t & n' & Hh & Ht & Hp & Hc).
      exists w', (t1 ++ t), n'.
      rewrite Hh, Ht, T1.
      rewrite !progress_calls_app, !completions_app, P1, C1, Hp, Hc.
      repeat split.
      * f_equal. f_equal. f_equal. lia.
      * now rewrite <- !app_assoc.
Qed.

(** A run of find_decision_makers on a batch that is not empty and on which
    no crawl raises. *)
Lemma find_decision_makers_batch e self w key batch :
  has_key "openai" key w ->
  FindDecisionMakers.fetch_fault e = None ->
  List.filter has_website (FindDecisionMakers.fetch self (store w)) = batch ->
  batch <> [] ->
  Forall (crawl_returns e key) batch ->
  exists w' t,
    FindDecisionMakers.run e self w = (w', inr tt)
    /\ trace w' = trace w ++ t
    /\ progress_calls t = reports 5 (length batch).
Proof.
  intros [Hk Hne] Hf Hb Hn Hc.
  unfold FindDecisionMakers.run. unfold bind at 1. rewrite get_api_key_eq, Hk.
  rewrite (key_present key Hne). unfold bind at 1. unfold get_store at 1.
  unfold bind at 1. rewrite Hf. unfold faulty at 1. unfold ret at 1.
  cbv beta iota. cbn [store].
  unfold bind at 1. unfold log at 1, emit at 1. cbv beta iota.
  rewrite Hb. change (default "" (Some key)) with key.
  set (N := length batch).
  destruct batch as [| l0 ls]; [contradiction |].
  unfold bind at 1. unfold log at 1, emit at 1. cbv beta iota.
  unfold bind at 1. rewrite update_progress_eq.
  unfold bind at 1.
  match goal with |- context [FindDecisionMakers.process_all _ _ _ _ _ _ _ ?w2] =>
    destruct (process_all_spec e key self N _ Hc 0 0 w2)
      as (w3 & t3 & n' & Hh & Ht & Hpc & Hco) end.
  rewrite Hh. cbn [fst snd]. fold N. cbn [Nat.add].
  match goal with |- context [bind ?c ?k w3] =>
    destruct (report_and_complete self N N (FindDecisionMakers.found_counter n')
                (batch_result "found" N n' N) w3) as (w' & Hr & Htr & _) end.
  exists w'. eexists. split; [exact Hr |]. split.
  - rewrite Htr, Ht. cbn [trace]. rewrite <- !app_assoc. reflexivity.
  - rewrite !progress_calls_app, Hpc. reflexivity.
Qed.

(** C6, as the code has it: a run of find_emails, or of
    find_decision_makers, that gets a batch of [N] leads, [N] not zero, and
    that no exception leaves, reports its progress before the first lead, at
    every tenth (find_emails) or fifth (find_decision_makers) completion and
    once more after the last; the processed counts of these reports never
    decrease, and the last report has [processed = N]. *)
Theorem progress_reports :
  (forall e self w key,
     has_key "openwebninja" key w ->
     FindEmails.fetch_fault e = None ->
     fair_pool e ->
     let batch := List.filter has_website (FindEmails.fetch self (store w)) in
     batch <> [] ->
     exists w' t,
       FindEmails.run e self w = (w', inr tt)
       /\ trace w' = trace w ++ t
       /\ progress_calls t = reports 10 (length batch)
       /\ StronglySorted le (map fst (progress_calls t))
       /\ last (progress_calls t) = Some (length batch, length batch))
  /\ (forall e self w key,
        has_key "openai" key w ->
        FindDecisionMakers.fetch_fault e = None ->
        let batch :=
          List.filter has_website (FindDecisionMakers.fetch self (store w)) in
        batch <> [] ->
        Forall (crawl_returns e key) batch ->
        exists w' t,
          FindDecisionMakers.run e self w = (w', inr tt)
          /\ trace w' = trace w ++ t
          /\ progress_calls t = reports 5 (length batch)
          /\ StronglySorted le (map fst (progress_calls t))
          /\ last (progress_calls t) = Some (length batch, length batch)).
Proof.
  split.
  - intros e self w key Hk Hf Hp batch Hn.
    destruct (find_emails_batch e self w key batch Hk Hf Hp eq_refl Hn)
      as (w' & t & Hr & Ht & Hpc & _).
    exists w', t. fold (reports 10 (length batch)) in Hpc. rewrite Hpc.
    repeat split; auto using reports_sorted, reports_last.
  - intros e self w key Hk Hf batch Hn Hc.
    destruct (find_decision_makers_batch e self w key batch Hk Hf eq_refl Hn Hc)
      as (w' & t & Hr & Ht & Hpc).
    exists w', t. rewrite Hpc.
    repeat split; auto using reports_sorted, reports_last.
Qed.

Lemma makers_world_key table : has_key "openai" "secret" (makers_world table).
Proof. split; [reflexivity | discriminate]. Defined.

Lemma twelve_crawls_return : Forall (crawl_returns crawling_env "secret") twelve_leads.
Proof.
  apply Forall_forall. intros l Hl.
  apply list_elem_of_fmap in Hl. destruct Hl as (n & -> & _).
  exists "a.com". eexists. split; reflexivity.
Defined.

(** C6 at three leads for find_emails and at twelve leads for
    find_decision_makers, which reports at the fifth and at the tenth lead. *)
Lemma progress_reports_witness :
  (exists w' t,
     FindEmails.run reversing_env emails_job (leads_world five_leads) = (w', inr tt)
     /\ progress_calls t = [(0, 3); (3, 3)]%nat)
  /\ (exists w' t,
        FindDecisionMakers.run crawling_env makers_job (makers_world twelve_leads)
        = (w', inr tt)
        /\ progress_calls t = [(0, 12); (5, 12); (10, 12); (12, 12)]%nat).
Proof.
  split.
  - destruct (proj1 progress_reports reversing_env emails_job
                (leads_world five_leads) "secret"
                (leads_world_key five_leads) eq_refl reversing_env_fair
                ltac:(discriminate)) as (w' & t & Hr & _ & Hp & _).
    exists w', t. split; [exact Hr | exact Hp].
  - destruct (proj2 progress_reports crawling_env makers_job
                (makers_world twelve_leads) "secret"
                (makers_world_key twelve_leads) eq_refl
                ltac:(discriminate) twelve_crawls_return)
      as (w' & t & Hr & _ & Hp & _).
    exists w', t. split; [exact Hr | exact Hp].
Defined.

(** C6 as it is stated fails: a run that finds no lead to process completes
    without any progress report, so that there is no last report with the
    number of input records. *)
Lemma progress_reports_counterexample :
  ~ (forall e self w w' t,
       FindEmails.run e self w = (w', inr tt) ->
       trace w' = trace w ++ t ->
       let N := length (List.filter has_website
                          (FindEmails.fetch self (store w))) in
       last (progress_calls t) = Some (N, N)).
Proof.
  intros H.
  specialize (H reversing_env emails_job (leads_world []) _ _ eq_refl eq_refl).
  vm_compute in H. discriminate H.
Qed.

(** ** The status map of a lead *)

Lemma update_lead_eq id u w :
  Base.update_lead id u w =
  (World (with_leads (store w) (Base.update_lead_rows id u (leads (store w))))
         (trace w ++ [LeadUpdateCall id u]), inr tt).
Proof. reflexivity. Qed.

Lemma update_lead_rows_lookup id u ls (i : nat) :
  Base.update_lead_rows id u ls !! i
  = (fun l => if String.eqb (lead_id l) id then Base.apply_updates u l else l)
      <$> ls !! i.
Proof. unfold Base.update_lead_rows. apply list_lookup_fmap. Qed.

(** C3: a partial update that carries an [enrichment_status] entry, applied
    with the record-update operation, leaves the lead with the union of the
    two maps: every key of the update has the value of the update, every
    other key has the value it had, and the other leads are left as they
    are. *)
Theorem status_map_merged id u new w :
  upd_status u = Some new ->
  let w' := fst (Base.update_lead id u w) in
  (forall (i : nat) l,
     leads (store w) !! i = Some l -> lead_id l = id ->
     exists l' merged,
       leads (store w') !! i = Some l' /\ lead_id l' = id
       /\ lead_enrichment_status l' = Some merged
       /\ merged = new ∪ default ∅ (lead_enrichment_status l)
       /\ (forall k v, new !! k = Some v -> merged !! k = Some v)
       /\ (forall k, new !! k = None ->
                     merged !! k = default ∅ (lead_enrichment_status l) !! k))
  /\ (forall (i : nat) l,
        leads (store w) !! i = Some l -> lead_id l <> id ->
        leads (store w') !! i = Some l).
Proof.
  intros Hu w'. subst w'. rewrite update_lead_eq. cbn [fst store leads with_leads].
  split; intros i l Hi Hid; rewrite update_lead_rows_lookup, Hi; simpl.
  - rewrite <- Hid, String.eqb_refl.
    exists (Base.apply_updates u l), (new ∪ default ∅ (lead_enrichment_status l)).
    split; [reflexivity |]. split; [reflexivity |].
    split; [simpl; now rewrite Hu |]. split; [reflexivity |]. split.
    + intros k v Hk. apply lookup_union_Some_l. exact Hk.
    + intros k Hk. apply lookup_union_r. exact Hk.
  - apply String.eqb_neq in Hid. now rewrite Hid.
Qed.

(** C3 at the lead with [{"stage_a": "done"}]: the update with
    [{"stage_b": "done"}] leaves it with both entries. *)
Lemma status_map_merged_witness :
  exists l',
    leads (store (fst (Base.update_lead "lead-9" stage_b_update staged_world)))
      !! 0%nat = Some l'
    /\ lead_enrichment_status l'
       = Some (<["stage_a" := FStr "done"]> {["stage_b" := FStr "done"]}).
Proof.
  destruct (proj1 (status_map_merged "lead-9" stage_b_update
                     {["stage_b" := FStr "done"]} staged_world eq_refl)
              0%nat staged_lead eq_refl eq_refl)
    as (l' & merged & Hl & _ & Hs & -> & _).
  exists l'. split; [exact Hl |]. rewrite Hs. reflexivity.
Defined.

(** The update that find_emails submits carries the outcome of its own stage
    only; the merge keeps the outcomes of the other stages. *)
Lemma map_contacts_status c :
  updates_truthy (FindEmails._map_contacts c) = true ->
  upd_status (FindEmails._map_contacts c) = Some {["find_emails" := FStr "done"]}.
Proof.
  unfold FindEmails._map_contacts, updates_truthy.
  destruct (bool_decide (FindEmails.map_fields c = ∅)) eqn:E; simpl;
    [| reflexivity].
  rewrite E. discriminate.
Qed.

(** The status map that find_decision_makers submits for a lead is the map
    the lead had when it was fetched, with the outcome of this stage. *)
Lemma stage_status_keeps l tag k :
  k <> "find_decision_makers" ->
  FindDecisionMakers.stage_status l tag !! k
  = default ∅ (lead_enrichment_status l) !! k.
Proof.
  intros H. unfold FindDecisionMakers.stage_status.
  now rewrite lookup_insert_ne by congruence.
Qed.

(** * Further properties of the dispatcher *)

Lemma db_eta d : Db (bulk_jobs d) (leads d) (api_keys d) = d.
Proof. now destruct d. Qed.

Lemma claim_nothing now jobs :
  Forall (fun j => job_status j <> pending) jobs ->
  claim_next_pending now jobs = (None, jobs).
Proof.
  induction 1 as [| j rest Hj _ IH]; simpl; [reflexivity |].
  destruct (status_eqb (job_status j) pending) eqn:E.
  - apply status_eqb_eq in E. contradiction.
  - now rewrite IH.
Qed.

(** X1: a pass that finds no pending job claims nothing: it makes the claim
    call, leaves the store as it is, sleeps for the poll interval and goes
    on. *)
Theorem idle_pass P env w :
  (0 <= P)%Z ->
  claim_fault env = None ->
  sleep_interrupted env = false ->
  none_pending w ->
  iteration P env w = (add w [ClaimCall; Sleep P], inr Continue).
Proof.
  intros HP Hc Hs Hn. apply iteration_continue.
  rewrite attempt_eq, Hc. rewrite (claim_nothing _ _ Hn). cbn [fst].
  unfold bind, claimed_world. rewrite time_sleep_eq, Hs.
  rewrite (claim_nothing _ _ Hn). cbn [snd].
  destruct (P <? 0)%Z eqn:E; [apply Z.ltb_lt in E; lia |].
  unfold ret, add, with_jobs. cbn [store trace]. rewrite db_eta.
  now rewrite <- app_assoc.
Qed.

Lemma idle_pass_witness :
  iteration 5 sample_env settled_queue
  = (add settled_queue [ClaimCall; Sleep 5], inr Continue).
Proof.
  apply idle_pass; [lia | reflexivity | reflexivity |].
  repeat constructor; discriminate.
Defined.

(** X2: when the claim call raises an exception, no job is claimed and the
    store is left as it is; the pass logs the error, sleeps for twice the
    poll interval and goes on. *)
Theorem unreachable_store_pass P env w msg :
  (0 <= P)%Z ->
  claim_fault env = Some (Exception msg) ->
  sleep_interrupted env = false ->
  iteration P env w = (add w (ClaimCall :: backoff P env msg), inr Continue).
Proof.
  intros HP Hc Hs.
  rewrite (iteration_backoff P env w (add w [ClaimCall]) msg HP Hs).
  - now rewrite add_add.
  - now rewrite attempt_eq, Hc.
Qed.

Lemma unreachable_store_pass_witness :
  iteration 5 unreachable_env sample_world
  = (add sample_world
       (ClaimCall :: backoff 5 unreachable_env "connection reset"),
     inr Continue).
Proof. apply unreachable_store_pass; [lia | reflexivity | reflexivity]. Defined.

(** X3: an interrupt that arrives while the handler of a claimed job runs
    is not taken for a failure of the job: the loop makes no further call on
    the store, logs the shutdown and ends, whatever passes would follow. *)
Theorem interrupted_run_stops P env w j cls wh rest :
  claims env w j ->
  registry_get JOB_HANDLERS (job_type j) = Some cls ->
  worker_run cls env j (handler_world env w j) = (wh, inl KeyboardInterrupt) ->
  loop P (env :: rest) w
  = (add wh [Log INFO "Worker shutting down (SIGINT)"], inr Stopped).
Proof.
  intros Hc Hr Hw.
  assert (attempt P env w = (wh, inl KeyboardInterrupt)) as A.
  { rewrite (attempt_registered P env w j cls Hc Hr).
    unfold bind. now rewrite (try_except_interrupt _ _ _ _ Hw). }
  cbn [loop]. unfold bind. now rewrite (iteration_interrupt P env w wh A).
Qed.

(** X3 at the queue of two jobs: the first job is left running, the second
    is never claimed. *)
Lemma interrupted_run_stops_witness :
  let r := loop 5 [interrupted_env; completing_env] two_jobs in
  snd r = inr Stopped
  /\ map job_status (bulk_jobs (store (fst r))) = [running; pending].
Proof.
  rewrite (interrupted_run_stops 5 interrupted_env two_jobs claimed_a
             CleanLeadsWorker
             (fst (worker_run CleanLeadsWorker interrupted_env claimed_a
                     (handler_world interrupted_env two_jobs claimed_a)))
             [completing_env] (conj eq_refl eq_refl) eq_refl eq_refl).
  split; reflexivity.
Defined.

(** X4: the startup sweep changes running rows only, and of those only the
    status, the start time and the progress: the table keeps its ids and
    order, every row that is not running is the row it was, a reset row
    keeps its type, configuration, result and error, no row is running
    afterwards, and the leads are not touched. *)
Theorem sweep_resets_running_only w :
  let w' := fst (recover_orphaned_jobs None w) in
  map job_id (bulk_jobs (store w')) = map job_id (bulk_jobs (store w))
  /\ (forall (i : nat) j,
        bulk_jobs (store w) !! i = Some j -> job_status j <> running ->
        bulk_jobs (store w') !! i = Some j)
  /\ (forall (i : nat) j,
        bulk_jobs (store w) !! i = Some j -> job_status j = running ->
        exists j', bulk_jobs (store w') !! i = Some j'
                   /\ job_type j' = job_type j
                   /\ job_config_of j' = job_config_of j
                   /\ job_result j' = job_result j
                   /\ job_error j' = job_error j)
  /\ Forall (fun j => job_status j <> running) (bulk_jobs (store w'))
  /\ leads (store w') = leads (store w).
Proof.
  intros w'. subst w'. rewrite recover_applied. cbn -[update_where].
  split; [now apply update_where_ids |].
  split; [| split; [| split; [| reflexivity]]].
  - intros i j Hi Hs. rewrite update_where_lookup, Hi. simpl.
    unfold is_running. destruct (status_eqb (job_status j) running) eqn:E;
      [apply status_eqb_eq in E; contradiction | reflexivity].
  - intros i j Hi Hs. rewrite update_where_lookup, Hi. simpl.
    unfold is_running. rewrite Hs. simpl. eexists. now repeat split.
  - unfold update_where. apply Forall_fmap, Forall_forall. intros j _. simpl.
    unfold is_running. destruct (status_eqb (job_status j) running) eqn:E.
    + discriminate.
    + intros H. rewrite H in E. discriminate.
Qed.

(** X5: an interrupt during the startup sweep is not caught by the
    [except Exception] of the sweep: [main] ends with the interrupt before
    it makes any claim call, and the store is as it was. *)
Theorem interrupted_sweep_ends_main P url script w :
  main P url (Some KeyboardInterrupt) script w
  = (add w (banner P url ++ [RecoverCall]), inl KeyboardInterrupt).
Proof.
  rewrite main_eq. unfold bind. rewrite recover_interrupted.
  now rewrite add_add.
Qed.

Lemma claim_changes_one now jobs j' :
  fst (claim_next_pending now jobs) = Some j' ->
  exists k : nat,
    snd (claim_next_pending now jobs) !! k = Some j'
    /\ forall (i : nat), i <> k ->
         snd (claim_next_pending now jobs) !! i = jobs !! i.
Proof.
  induction jobs as [| j0 rest IH]; simpl; [discriminate |].
  destruct (status_eqb (job_status j0) pending) eqn:E; simpl.
  - intros [= <-]. exists 0%nat. split; [reflexivity |].
    intros [| i] Hi; [contradiction | reflexivity].
  - intros H. destruct (IH H) as (k & Hk & Ho). exists (S k).
    split; [exact Hk |]. intros [| i] Hi; [reflexivity |].
    simpl. apply Ho. congruence.
Qed.

Lemma attempt_ids P env w :
  map job_id (bulk_jobs (store (fst (attempt P env w))))
  = map job_id (bulk_jobs (store w)).
Proof.
  rewrite attempt_eq. destruct (claim_fault env); [reflexivity |].
  destruct (fst (claim_next_pending (now env) (bulk_jobs (store w)))) as [j' |].
  - destruct (dispatch_frame env j' (claimed_world env w)) as [I _].
    rewrite I. apply claim_ids.
  - unfold bind. rewrite time_sleep_eq.
    destruct (_ <? 0)%Z; [apply claim_ids |].
    destruct (sleep_interrupted env); apply claim_ids.
Qed.

(** X6: with distinct job ids, one pass of the loop changes at most one row
    of the jobs table, the row of the job it claims; it adds and removes no
    row, and it changes no row at all when it claims nothing. *)
Theorem pass_changes_one_job P env w :
  NoDup (map job_id (bulk_jobs (store w))) ->
  let w' := fst (iteration P env w) in
  map job_id (bulk_jobs (store w')) = map job_id (bulk_jobs (store w))
  /\ (exists k : nat, forall (i : nat), i <> k ->
        bulk_jobs (store w') !! i = bulk_jobs (store w) !! i)
  /\ (fst (claim_next_pending (now env) (bulk_jobs (store w))) = None ->
      bulk_jobs (store w') = bulk_jobs (store w)).
Proof.
  intros ND w'. subst w'. rewrite iteration_store.
  split; [apply attempt_ids |].
  rewrite attempt_eq. destruct (claim_fault env) as [e |].
  { split; [exists 0%nat |]; reflexivity. }
  destruct (fst (claim_next_pending (now env) (bulk_jobs (store w))))
    as [j' |] eqn:C.
  - split; [| discriminate].
    destruct (claim_changes_one _ _ _ C) as (k & Hk & Ho).
    destruct (dispatch_frame env j' (claimed_world env w)) as [I F].
    exists k. intros i Hi.
    assert (NoDup (map job_id (bulk_jobs (store (claimed_world env w))))) as ND'.
    { simpl. now rewrite claim_ids. }
    destruct (bulk_jobs (store w) !! i) as [j |] eqn:E.
    + apply F.
      * simpl. rewrite (Ho i Hi). exact E.
      * intros Hid. apply Hi.
        eapply (NoDup_lookup_ids _ i k j j' ND'); simpl;
          [rewrite (Ho i Hi); exact E | exact Hk | exact Hid].
    + apply lookup_ge_None. apply lookup_ge_None in E.
      rewrite <- (length_map job_id), I. simpl.
      rewrite claim_ids, length_map. exact E.
  - assert (bulk_jobs (store (fst
              ((time_sleep P (sleep_interrupted env);;; ret Continue)
                 (claimed_world env w)))) = bulk_jobs (store w)) as S.
    { unfold bind. rewrite time_sleep_eq. unfold claimed_world.
      rewrite (claim_none _ _ C).
      destruct (_ <? 0)%Z; [reflexivity |].
      now destruct (sleep_interrupted env). }
    rewrite S. split; [exists 0%nat |]; reflexivity.
Qed.

Lemma pass_changes_one_job_witness :
  exists k : nat, forall (i : nat), i <> k ->
    bulk_jobs (store (fst (iteration 5 raising_env sample_world))) !! i
    = bulk_jobs (store sample_world) !! i.
Proof.
  exact (proj1 (proj2 (pass_changes_one_job 5 raising_env sample_world
                         sample_ids_distinct))).
Defined.

(** * Further properties of the handlers *)

Lemma failed_with_fail self msg w :
  has_job (job_id self) w ->
  failed_with (job_id self) msg (fst (Base.fail self msg w)).
Proof.
  intros (i & j & Hi & Hj). rewrite fail_eq. unfold failed_with.
  cbn -[update_where]. split; [| apply failed_patch_marks].
  exists i. eexists. rewrite update_where_lookup, Hi. simpl.
  unfold has_id. rewrite Hj, String.eqb_refl. split; [reflexivity | exact Hj].
Qed.

Lemma emails_without_key e self w :
  key_missing (api_keys (store w) !! "openwebninja") = true ->
  FindEmails.run e self w
  = Base.fail self "OpenWeb Ninja API key not configured" w.
Proof.
  intros Hk. unfold FindEmails.run. unfold bind at 1.
  now rewrite get_api_key_eq, Hk.
Qed.

Lemma makers_without_key e self w :
  key_missing (api_keys (store w) !! "openai") = true ->
  FindDecisionMakers.run e self w
  = Base.fail self "OpenAI API key not configured" w.
Proof.
  intros Hk. unfold FindDecisionMakers.run. unfold bind at 1.
  now rewrite get_api_key_eq, Hk.
Qed.

(** X7: without a configured key (none, or an empty one) a run of
    find_emails or of find_decision_makers fails its job with a message
    that names the missing key and returns; it does this before it queries
    the store, so that it does so even when the store is unreachable, and it
    makes no other call and changes no lead. *)
Theorem missing_key_fails_job self w :
  (forall e,
     key_missing (api_keys (store w) !! "openwebninja") = true ->
     let r := FindEmails.run e self w in
     snd r = inr tt
     /\ trace (fst r)
        = trace w ++ [FailCall (job_id self) "OpenWeb Ninja API key not configured"]
     /\ leads (store (fst r)) = leads (store w)
     /\ (has_job (job_id self) w ->
         failed_with (job_id self) "OpenWeb Ninja API key not configured" (fst r)))
  /\ (forall e,
        key_missing (api_keys (store w) !! "openai") = true ->
        let r := FindDecisionMakers.run e self w in
        snd r = inr tt
        /\ trace (fst r)
           = trace w ++ [FailCall (job_id self) "OpenAI API key not configured"]
        /\ leads (store (fst r)) = leads (store w)
        /\ (has_job (job_id self) w ->
            failed_with (job_id self) "OpenAI API key not configured" (fst r))).
Proof.
  split; intros e Hk r; subst r.
  - rewrite (emails_without_key e self w Hk).
    split; [reflexivity |]. split; [reflexivity |]. split; [reflexivity |].
    intros Hj. now apply failed_with_fail.
  - rewrite (makers_without_key e self w Hk).
    split; [reflexivity |]. split; [reflexivity |]. split; [reflexivity |].
    intros Hj. now apply failed_with_fail.
Qed.

Lemma missing_key_fails_job_witness :
  failed_with "job-e" "OpenWeb Ninja API key not configured"
    (fst (FindEmails.run outage_emails_env emails_job keyless_world)).
Proof.
  apply (proj1 (missing_key_fails_job emails_job keyless_world)
           outage_emails_env eq_refl).
  exists 0%nat, emails_job. split; reflexivity.
Defined.

Lemma emails_without_leads e self w key :
  has_key "openwebninja" key w ->
  FindEmails.fetch_fault e = None ->
  List.filter has_website (FindEmails.fetch self (store w)) = [] ->
  FindEmails.run e self w
  = Base.complete self
      (nothing_to_do
         (if FindEmails.validated_only_of self
          then "No validated leads with websites found. Run clean & validate first."
          else "No leads with websites found"))
      (add w [fetched_log self (FindEmails.fetch self (store w))]).
Proof.
  intros [Hk Hne] Hf Hb.
  unfold FindEmails.run. unfold bind at 1. rewrite get_api_key_eq, Hk.
  rewrite (key_present key Hne). unfold bind at 1. unfold get_store at 1.
  unfold bind at 1. rewrite Hf. unfold faulty at 1. unfold ret at 1.
  cbv beta iota. cbn [store].
  unfold bind at 1. unfold log at 1, emit at 1. cbv beta iota.
  now rewrite Hb.
Qed.

(** X8: a run of find_emails that finds no lead with a web site completes
    its job at once, with [processed = 0] and a message that depends on
    [validated_only]; it submits no task, reports no progress and changes no
    lead. *)
Theorem empty_batch_completes e self w key :
  has_key "openwebninja" key w ->
  FindEmails.fetch_fault e = None ->
  List.filter has_website (FindEmails.fetch self (store w)) = [] ->
  let message :=
    if FindEmails.validated_only_of self
    then "No validated leads with websites found. Run clean & validate first."
    else "No leads with websites found" in
  let r := FindEmails.run e self w in
  snd r = inr tt
  /\ trace (fst r)
     = trace w ++ [fetched_log self (FindEmails.fetch self (store w));
                   CompleteCall (job_id self) (nothing_to_do message)]
  /\ leads (store (fst r)) = leads (store w)
  /\ done_result self (nothing_to_do message) (fst r).
Proof.
  intros Hk Hf Hb message r. subst r.
  rewrite (emails_without_leads e self w key Hk Hf Hb). fold message.
  rewrite complete_eq. unfold done_result. cbn -[update_where].
  split; [reflexivity |]. split; [now rewrite <- app_assoc |].
  split; [reflexivity |].
  intros i j. rewrite update_where_lookup.
  destruct (bulk_jobs (store w) !! i) as [j0 |]; simpl; [| discriminate].
  destruct (has_id (job_id self) j0) eqn:Hid; intros [= <-] Hj.
  - now split.
  - unfold has_id in Hid. apply String.eqb_neq in Hid. contradiction.
Qed.

Lemma empty_batch_completes_witness :
  done_result emails_job
    (nothing_to_do
       "No validated leads with websites found. Run clean & validate first.")
    (fst (FindEmails.run reversing_env emails_job (leads_world [siteless_lead]))).
Proof.
  exact (proj2 (proj2 (proj2
    (empty_batch_completes reversing_env emails_job
       (leads_world [siteless_lead]) "secret"
       (leads_world_key _) eq_refl eq_refl)))).
Defined.

Lemma fetch_fault_escapes e self w key ex :
  has_key "openwebninja" key w ->
  FindEmails.fetch_fault e = Some ex ->
  FindEmails.run e self w = (w, inl ex).
Proof.
  intros [Hk Hne] Hf.
  unfold FindEmails.run. unfold bind at 1. rewrite get_api_key_eq, Hk.
  rewrite (key_present key Hne). unfold bind at 1. unfold get_store at 1.
  unfold bind at 1. now rewrite Hf.
Qed.

Lemma iteration_handler_raises P env w j cls msg wh :
  claims env w j ->
  registry_get JOB_HANDLERS (job_type j) = Some cls ->
  worker_run cls env j (handler_world env w j) = (wh, inl (Exception msg)) ->
  iteration P env w
  = (World (with_jobs (store wh)
              (update_where (has_id (job_id j)) (failed_patch msg)
                            (bulk_jobs (store wh))))
           (trace wh ++ failure_report env j msg), inr Continue).
Proof.
  intros Hc Hr Hw. apply iteration_continue.
  rewrite (attempt_registered P env w j cls Hc Hr).
  unfold bind at 1. rewrite (try_except_exception _ _ _ _ _ Hw).
  unfold bind, log, emit. simpl. now rewrite <- !app_assoc.
Qed.

(** X9: when the store raises an exception at the fetch of find_emails, the
    exception leaves the run before any call on the execution context, and
    the dispatcher fails the claimed job with the message of the exception;
    no lead is changed and the loop goes on. *)
Theorem fetch_outage_fails_job P env w j key msg :
  claims env w j ->
  job_type j = "find_emails" ->
  has_key "openwebninja" key w ->
  FindEmails.fetch_fault (emails_env env) = Some (Exception msg) ->
  let r := iteration P env w in
  snd r = inr Continue
  /\ failed_with (job_id j) msg (fst r)
  /\ leads (store (fst r)) = leads (store w)
  /\ trace (fst r)
     = trace (handler_world env w j) ++ failure_report env j msg.
Proof.
  intros Hc Ht Hk Hf r. subst r.
  assert (registry_get JOB_HANDLERS (job_type j) = Some FindEmailsWorker) as Hr
    by now rewrite Ht.
  assert (has_key "openwebninja" key (handler_world env w j)) as Hk' by exact Hk.
  pose proof (fetch_fault_escapes (emails_env env) j _ key _ Hk' Hf) as Hw.
  rewrite (iteration_handler_raises P env w j FindEmailsWorker msg _ Hc Hr Hw).
  cbn [fst snd]. split; [reflexivity |]. split; [| split; reflexivity].
  apply (failed_with_fail j msg (handler_world env w j)).
  destruct (claimed_has_job env w j Hc) as (i & j0 & Hi & Hj).
  exists i, j0. split; assumption.
Qed.

Lemma fetch_outage_fails_job_witness :
  failed_with "job-e" "connection reset" (fst (iteration 5 outage_env emails_queue)).
Proof.
  pose (j := Job "job-e" "find_emails" running (JobConfig (Some 3%nat) None None)
                 "campaign-1" ∅ (Some 1700000100%Z) None None).
  assert (claims outage_env emails_queue j) as Hc by (split; reflexivity).
  assert (has_key "openwebninja" "secret" emails_queue) as Hk
    by (split; [reflexivity | discriminate]).
  destruct (fetch_outage_fails_job 5 outage_env emails_queue j "secret"
              "connection reset" Hc eq_refl Hk eq_refl) as (_ & H & _).
  exact H.
Defined.

(** ** The request of find_emails *)

(** X10: for a web site that is a string, [_scrape_contacts] never raises,
    and it returns contacts exactly when the request for the site (with
    [https://] put in front unless it starts with [http]) is answered
    without an error status by a body that decodes, has the status ["OK"]
    and at least one result; the contacts are the first result. *)
Theorem scrape_contacts_result e key site :
  (exists r, FindEmails._scrape_contacts e key (FStr site) = inr r)
  /\ forall c,
       FindEmails._scrape_contacts e key (FStr site) = inr (Some c)
       <-> exists code rest,
             FindEmails.requests_get e (request_url site)
             = FindEmails.Response code
                 (Some (FindEmails.ApiBody (Some "OK") (c :: rest)))
             /\ ~ (400 <= code < 600)%Z.
Proof.
  unfold FindEmails._scrape_contacts. fold (request_url site). split.
  - repeat (match goal with
            | |- context [match ?x with _ => _ end] => destruct x
            end); eexists; reflexivity.
  - intros c. split.
    + intros H.
      destruct (FindEmails.requests_get e (request_url site))
        as [m | code body]; [discriminate |].
      destruct ((400 <=? code)%Z && (code <? 600)%Z) eqn:R; [discriminate |].
      destruct body as [[st dl] |]; [| discriminate]. simpl in H.
      destruct st as [s |]; [| discriminate].
      repeat (match type of H with
              | context [match ?x with _ => _ end] => destruct x
              end; try discriminate H).
      injection H as <-. eexists. eexists. split; [reflexivity |].
      intros [H1 H2]. apply Z.leb_le in H1. apply Z.ltb_lt in H2.
      now rewrite H1, H2 in R.
    + intros (code & rest & -> & Hc).
      destruct ((400 <=? code)%Z && (code <? 600)%Z) eqn:R; [| reflexivity].
      apply andb_prop in R. destruct R as [H1 H2].
      apply Z.leb_le in H1. apply Z.ltb_lt in H2. lia.
Qed.

(** ** The mapping of find_emails *)

Lemma keys_among_empty keys : keys_among keys ∅.
Proof. intros k [v H]. now rewrite lookup_empty in H. Qed.

Lemma keys_among_insert keys k v m :
  k ∈ keys -> keys_among keys m -> keys_among keys (<[k := v]> m).
Proof.
  intros Hk Hm k' H. destruct (decide (k = k')) as [<- | Hne]; [exact Hk |].
  apply Hm. now rewrite lookup_insert_ne in H.
Qed.

Lemma column_in k : In k contact_columns -> k ∈ contact_columns.
Proof. apply list_elem_of_In. Qed.

Lemma put_values_among single plural l m :
  single ∈ contact_columns -> plural ∈ contact_columns ->
  keys_among contact_columns m ->
  keys_among contact_columns (FindEmails.put_values single plural l m).
Proof.
  intros Hs Hp Hm. unfold FindEmails.put_values.
  destruct (FindEmails.entry_values l); [exact Hm |].
  now repeat apply keys_among_insert.
Qed.

Lemma put_social_among s m :
  keys_among contact_columns m ->
  keys_among contact_columns (FindEmails.put_social s m).
Proof.
  intros Hm. unfold FindEmails.put_social. destruct s; [| exact Hm].
  repeat (match goal with
          | |- context [if ?b then _ else _] => destruct b
          end);
    try exact Hm; apply keys_among_insert; try exact Hm;
    apply column_in; simpl; tauto.
Qed.

Lemma put_social_item_among item m :
  keys_among contact_columns m ->
  keys_among contact_columns (FindEmails.put_social_item item m).
Proof.
  intros Hm. unfold FindEmails.put_social_item.
  destruct (existsb _ FindEmails.social_keys) eqn:E; [| exact Hm].
  apply keys_among_insert; [| exact Hm].
  apply existsb_exists in E. destruct E as (k & Hk & Ek).
  apply String.eqb_eq in Ek. subst k. apply column_in.
  simpl in Hk. simpl. tauto.
Qed.

Lemma fold_left_among {A} (f : gmap string fval -> A -> gmap string fval) l :
  (forall m a, keys_among contact_columns m -> keys_among contact_columns (f m a)) ->
  forall m, keys_among contact_columns m ->
            keys_among contact_columns (fold_left f l m).
Proof.
  intros Hf. induction l as [| a l IH]; intros m Hm; simpl; [exact Hm |].
  apply IH, Hf, Hm.
Qed.

(** X11: [_map_contacts] writes no other column than the eight contact
    columns, whatever the answer of the API holds. *)
Theorem map_contacts_columns c :
  keys_among contact_columns (upd_fields (FindEmails._map_contacts c)).
Proof.
  assert (keys_among contact_columns (FindEmails.map_fields c)) as H.
  { unfold FindEmails.map_fields.
    assert (keys_among contact_columns
              (FindEmails.put_values "phone" "phones"
                 match FindEmails.c_phone_numbers c with
                 | Some p => p
                 | None => default [] (FindEmails.c_phones c)
                 end
                 (FindEmails.put_values "email" "emails"
                    (default [] (FindEmails.c_emails c)) ∅))) as H0.
    { repeat apply put_values_among; try (apply column_in; simpl; tauto).
      apply keys_among_empty. }
    destruct (match FindEmails.c_social_media c with
              | Some s => s
              | None => default (FindEmails.SocialList []) (FindEmails.c_socials c)
              end) as [l | items |]; [| | exact H0].
    - apply fold_left_among; [| exact H0].
      intros m a. apply put_social_among.
    - apply fold_left_among; [| exact H0].
      intros m a. apply put_social_item_among. }
  unfold FindEmails._map_contacts.
  now destruct (bool_decide (FindEmails.map_fields c = ∅)).
Qed.

Lemma put_social_keeps s m k :
  k ∉ FindEmails.social_keys -> FindEmails.put_social s m !! k = m !! k.
Proof.
  intros Hk. unfold FindEmails.put_social. destruct s; [| reflexivity].
  repeat (match goal with
          | |- context [if ?b then _ else _] => destruct b
          end);
    try reflexivity; apply lookup_insert_ne; intros <-; apply Hk;
    apply list_elem_of_In; simpl; tauto.
Qed.

Lemma put_social_item_keeps item m k :
  k ∉ FindEmails.social_keys -> FindEmails.put_social_item item m !! k = m !! k.
Proof.
  intros Hk. unfold FindEmails.put_social_item.
  destruct (existsb _ FindEmails.social_keys) eqn:E; [| reflexivity].
  apply lookup_insert_ne. intros <-. apply Hk.
  apply existsb_exists in E. destruct E as (k' & Hk' & Ek).
  apply String.eqb_eq in Ek. subst k'. now apply list_elem_of_In.
Qed.

Lemma fold_left_keeps {A} (f : gmap string fval -> A -> gmap string fval) l k :
  (forall m a, f m a !! k = m !! k) ->
  forall m, fold_left f l m !! k = m !! k.
Proof.
  intros Hf. induction l as [| a l IH]; intros m; simpl; [reflexivity |].
  now rewrite IH, Hf.
Qed.

Lemma map_fields_keeps c k :
  k ∉ FindEmails.social_keys ->
  FindEmails.map_fields c !! k
  = FindEmails.put_values "phone" "phones" (phone_entries c)
      (FindEmails.put_values "email" "emails"
         (default [] (FindEmails.c_emails c)) ∅) !! k.
Proof.
  intros Hk. unfold FindEmails.map_fields. fold (phone_entries c).
  destruct (match FindEmails.c_social_media c with
            | Some s => s
            | None => default (FindEmails.SocialList []) (FindEmails.c_socials c)
            end) as [l | items |]; [| | reflexivity].
  - apply fold_left_keeps. intros m a. now apply put_social_keeps.
  - apply fold_left_keeps. intros m a. now apply put_social_item_keeps.
Qed.

Lemma not_social k :
  In k ["email"; "emails"; "phone"; "phones"] -> k ∉ FindEmails.social_keys.
Proof.
  intros H Hs. apply list_elem_of_In in Hs. simpl in H, Hs.
  repeat (destruct H as [<- | H]; [intuition discriminate |]). exact H.
Qed.

(** X12: of the addresses of an answer, [_map_contacts] keeps the values of
    the entries that are dicts (the empty string for a dict without value)
    or strings, in their order; ["email"] is the first of them and
    ["emails"] the list, and neither column is written when there is none.
    The same holds for ["phone"] and ["phones"], read from
    ["phone_numbers"] when the answer has that key and from ["phones"]
    otherwise. *)
Theorem map_contacts_values c :
  let u := upd_fields (FindEmails._map_contacts c) in
  holds_values "email" "emails"
    (FindEmails.entry_values (default [] (FindEmails.c_emails c))) u
  /\ holds_values "phone" "phones"
       (FindEmails.entry_values (phone_entries c)) u.
Proof.
  intros u.
  assert (u = FindEmails.map_fields c) as ->.
  { subst u. unfold FindEmails._map_contacts.
    now destruct (bool_decide (FindEmails.map_fields c = ∅)). }
  unfold holds_values.
  rewrite !(map_fields_keeps c "email"), !(map_fields_keeps c "emails"),
    !(map_fields_keeps c "phone"), !(map_fields_keeps c "phones")
    by (apply not_social; simpl; tauto).
  unfold FindEmails.put_values.
  destruct (FindEmails.entry_values (default [] (FindEmails.c_emails c)))
    as [| v vs];
    destruct (FindEmails.entry_values (phone_entries c)) as [| p ps];
    repeat split;
    repeat (first [ rewrite lookup_insert_eq | rewrite lookup_insert_ne by discriminate
                  | rewrite lookup_empty ]); reflexivity.
Qed.

(** The answer with mixed entries: the entry that is neither dict nor string
    is skipped, and the phones come from ["phone_numbers"]. *)
Example map_contacts_mixed :
  let u := FindEmails._map_contacts mixed_contacts in
  upd_fields u !! "email" = Some (FStr "sales@example.com")
  /\ upd_fields u !! "emails" = Some (FList ["sales@example.com"; ""])
  /\ upd_fields u !! "phones" = Some (FList ["+1 555 0100"])
  /\ upd_fields u !! "social_facebook" = Some (FStr "https://fb.example")
  /\ upd_status u = Some {["find_emails" := FStr "done"]}.
Proof. vm_compute. repeat split. Qed.

(** ** What a batch of find_emails counts *)

Lemma omap_length_le {A B} (f : A -> option B) l :
  (length (omap f l) <= length l)%nat.
Proof.
  induction l as [| x l IH]; [reflexivity |].
  rewrite omap_cons_app, length_app. simpl length at 2.
  destruct (f x); simpl; lia.
Qed.

(** X13: in a run of find_emails on a batch of [N] leads, the count
    [enriched] of the result is the number of record updates the run
    submitted; it is at most [N], and every update is for a lead of the
    batch. *)
Theorem enriched_counts_updates e self w key :
  has_key "openwebninja" key w ->
  FindEmails.fetch_fault e = None ->
  fair_pool e ->
  let batch := List.filter has_website (FindEmails.fetch self (store w)) in
  let N := length batch in
  batch <> [] ->
  exists w' t,
    FindEmails.run e self w = (w', inr tt)
    /\ trace w' = trace w ++ t
    /\ completions t = [batch_result "enriched" N (length (lead_updates t)) N]
    /\ (length (lead_updates t) <= N)%nat
    /\ forall id u, (id, u) ∈ lead_updates t ->
                    exists l, l ∈ batch /\ lead_id l = id.
Proof.
  intros Hk Hf Hp batch N Hn.
  destruct (find_emails_batch e self w key batch Hk Hf Hp eq_refl Hn)
    as (w' & t & Hr & Ht & _ & Hlu & Hco & _).
  exists w', t. split; [exact Hr |]. split; [exact Ht |].
  rewrite Hlu. split; [exact Hco |]. split.
  - rewrite (Hp _). subst N batch. rewrite submit_all_batch.
    etransitivity; [apply omap_length_le |]. now rewrite length_map.
  - intros id u H. apply list_elem_of_omap in H.
    destruct H as (f & Hf' & Ho).
    rewrite (Hp _) in Hf'. subst batch. rewrite submit_all_batch in Hf'.
    apply list_elem_of_fmap in Hf'. destruct Hf' as (l & -> & Hl).
    exists l. split; [exact Hl |].
    unfold outcome_of in Ho. simpl in Ho.
    destruct (FindEmails._scrape_contacts e key (website_of l)) as [| [c |]];
      try discriminate.
    destruct (FindEmails.contacts_truthy c); [| discriminate].
    destruct (updates_truthy _); [| discriminate]. now injection Ho.
Qed.

Lemma enriched_counts_updates_witness :
  exists w' t,
    FindEmails.run reversing_env emails_job (leads_world five_leads) = (w', inr tt)
    /\ completions t = [batch_result "enriched" 3 (length (lead_updates t)) 3].
Proof.
  destruct (enriched_counts_updates reversing_env emails_job
              (leads_world five_leads) "secret"
              (leads_world_key five_leads) eq_refl reversing_env_fair
              ltac:(discriminate)) as (w' & t & Hr & _ & Hc & _).
  exists w', t. split; [exact Hr | exact Hc].
Defined.

(** ** The process creates and deletes no row *)

#[export] Instance rows_kept_preorder : PreOrder rows_kept.
Proof.
  split.
  - intros w. now repeat split.
  - intros a b c (J1 & L1 & K1) (J2 & L2 & K2). repeat split; congruence.
Qed.

Lemma emit_rows_kept e : steps rows_kept (emit e).
Proof. intros w. now repeat split. Qed.

Lemma log_rows_kept l m : steps rows_kept (log l m).
Proof. apply emit_rows_kept. Qed.

Lemma update_job_rows_kept id patch :
  (forall j, job_id (patch j) = job_id j) ->
  steps rows_kept (update_job id patch).
Proof.
  intros H w. split; [| now split]. simpl. now apply update_where_ids.
Qed.

Lemma update_progress_rows_kept self p t x :
  steps rows_kept (Base.update_progress self p t x).
Proof.
  unfold Base.update_progress.
  apply steps_bind; [typeclasses eauto | apply emit_rows_kept | intros _].
  now apply update_job_rows_kept.
Qed.

Lemma complete_rows_kept self x : steps rows_kept (Base.complete self x).
Proof.
  unfold Base.complete.
  apply steps_bind; [typeclasses eauto | apply emit_rows_kept | intros _].
  now apply update_job_rows_kept.
Qed.

Lemma fail_rows_kept self m : steps rows_kept (Base.fail self m).
Proof.
  unfold Base.fail.
  apply steps_bind; [typeclasses eauto | apply emit_rows_kept | intros _].
  now apply update_job_rows_kept.
Qed.

Lemma update_lead_rows_kept id u : steps rows_kept (Base.update_lead id u).
Proof.
  intros w. rewrite update_lead_eq. split; [reflexivity |].
  split; [| reflexivity]. cbn [fst store leads with_leads].
  unfold Base.update_lead_rows. rewrite map_map. apply map_ext.
  intros l. now destruct (String.eqb (lead_id l) id).
Qed.

Lemma worker_run_rows_kept cls env self : steps rows_kept (worker_run cls env self).
Proof.
  apply worker_run_steps;
    auto using rows_kept_preorder, log_rows_kept, update_progress_rows_kept,
               complete_rows_kept, fail_rows_kept, update_lead_rows_kept.
Qed.

Lemma time_sleep_rows_kept s i : steps rows_kept (time_sleep s i).
Proof. intros w. rewrite time_sleep_eq. now repeat split. Qed.

Lemma iteration_rows_kept P env : steps rows_kept (iteration P env).
Proof.
  intros w. unfold rows_kept.
  split; [rewrite iteration_store; apply attempt_ids |].
  rewrite iteration_store, attempt_eq.
  destruct (claim_fault env); [now split |].
  destruct (fst (claim_next_pending (now env) (bulk_jobs (store w)))) as [j' |].
  - assert (steps rows_kept (dispatch env j')) as D.
    { unfold dispatch.
      pose proof worker_run_rows_kept. pose proof log_rows_kept.
      pose proof emit_rows_kept. pose proof fail_rows_kept.
      pose proof rows_kept_preorder. pose proof update_job_rows_kept.
      destruct (registry_get JOB_HANDLERS (job_type j')); split_steps. }
    destruct (D (claimed_world env w)) as (_ & L & K). now split.
  - destruct (time_sleep_rows_kept P (sleep_interrupted env) (claimed_world env w))
      as (_ & L & K).
    unfold bind.
    destruct (time_sleep P (sleep_interrupted env) (claimed_world env w))
      as [w1 [ex | []]]; now split.
Qed.

Lemma loop_rows_kept P script : steps rows_kept (loop P script).
Proof.
  induction script as [| env rest IH]; simpl.
  - apply steps_ret. typeclasses eauto.
  - apply steps_bind; [typeclasses eauto | apply iteration_rows_kept |].
    intros []; [exact IH | apply steps_ret; typeclasses eauto].
Qed.

(** X14: whatever happens to it, the process adds and removes no row: after
    any run of [main] (sweep and any number of passes, with handlers that
    act through their execution context) the jobs table and the leads table
    hold the same ids in the same order, and the API keys are as they
    were. *)
Theorem main_keeps_rows P url fault script w :
  rows_kept w (fst (main P url fault script w)).
Proof.
  rewrite main_eq.
  assert (steps rows_kept (recover_orphaned_jobs fault ;;; loop P script)) as S.
  { apply steps_bind; [typeclasses eauto | | intros _; apply loop_rows_kept].
    intros w0. destruct fault as [[msg |] |].
    - rewrite recover_failed. now repeat split.
    - rewrite recover_interrupted. now repeat split.
    - rewrite recover_applied. split; [| now split].
      simpl. now apply update_where_ids. }
  exact (S (add w (banner P url))).
Qed.

(** ** The query of the handlers *)

Lemma filter_sublist {A} (f : A -> bool) l : sublist (List.filter f l) l.
Proof.
  induction l as [| x l IH]; simpl; [constructor |].
  destruct (f x); now constructor.
Qed.

(** X15: the leads that find_emails fetches are rows of the leads table in
    their order; each is of the campaign of the job, has no email unless
    the configuration sets [include_existing], and has a validated web site
    unless the configuration clears [validated_only]. *)
Theorem fetched_leads_eligible self w :
  let fetched := FindEmails.fetch self (store w) in
  sublist fetched (leads (store w))
  /\ forall l, l ∈ fetched ->
       in_campaign (job_campaign_id self) l = true
       /\ (include_existing (job_config_of self) <> Some true ->
           is_null (lead_fields l !! "email") = true)
       /\ (validated_only (job_config_of self) <> Some false ->
           website_validated l = true).
Proof.
  intros fetched. subst fetched. unfold FindEmails.fetch, select_leads. split.
  - etransitivity; [apply sublist_take | apply filter_sublist].
  - intros l Hl. apply (subseteq_take _ _) in Hl.
    apply list_elem_of_In, filter_In in Hl. destruct Hl as [_ Hl].
    unfold store_filter in Hl.
    apply andb_prop in Hl. destruct Hl as [Hl Hv].
    apply andb_prop in Hl. destruct Hl as [Hc He].
    split; [exact Hc |]. split.
    + intros Hi. unfold FindEmails.include_existing_of in He.
      destruct (include_existing (job_config_of self)) as [[|] |];
        simpl in He; congruence.
    + intros Hi. unfold FindEmails.validated_only_of in Hv.
      destruct (validated_only (job_config_of self)) as [[|] |];
        simpl in Hv; congruence.
Qed.

Lemma fetched_leads_eligible_witness :
  in_campaign "campaign-1" (sample_lead "lead-1" "a.com") = true
  /\ is_null (lead_fields (sample_lead "lead-1" "a.com") !! "email") = true.
Proof.
  destruct (proj2 (fetched_leads_eligible emails_job (leads_world five_leads))
              (sample_lead "lead-1" "a.com")) as (Hc & He & _).
  - apply list_elem_of_here.
  - split; [exact Hc |]. apply He. discriminate.
Defined.

Lemma sweep_resets_running_only_witness :
  bulk_jobs (store (fst (recover_orphaned_jobs None sample_world))) !! 1%nat
  = Some (sample_job "job-1" "unknown_type" pending).
Proof.
  apply (proj1 (proj2 (sweep_resets_running_only sample_world)));
    [reflexivity | discriminate].
Defined.

(** ** The batch of find_decision_makers *)

Lemma stage_says_done l :
  says_done (lead_id l, Updates ∅ (Some (FindDecisionMakers.stage_status l "not_found")))
  = false.
Proof.
  unfold says_done, FindDecisionMakers.stage_status. simpl.
  now rewrite lookup_insert_eq.
Qed.

Lemma process_lead_full e key l n w :
  crawl_returns e key l ->
  exists w1 t u,
    FindDecisionMakers.process_lead e key l n w
    = (w1, inr (n + if says_done (lead_id l, u) then 1 else 0))%nat
    /\ trace w1 = trace w ++ t
    /\ progress_calls t = [] /\ completions t = []
    /\ lead_updates t = [(lead_id l, u)]
    /\ makers_update l (lead_id l, u).
Proof.
  intros (site & r & Hs & Hr). unfold FindDecisionMakers.process_lead.
  rewrite Hs. fold (request_url site). rewrite Hr.
  destruct (FindDecisionMakers.dm_truthy r).
  - eexists. eexists.
    exists (Updates (delete "enrichment_status" (default ∅ r))
                    (Some (FindDecisionMakers.stage_status l "done"))).
    unfold bind at 1. rewrite update_lead_eq. cbv beta iota.
    unfold bind at 1. unfold log, emit, ret. cbv beta iota.
    cbn [fst snd store trace].
    assert (says_done (lead_id l,
              Updates (delete "enrichment_status" (default ∅ r))
                      (Some (FindDecisionMakers.stage_status l "done"))) = true) as ->.
    { unfold says_done, FindDecisionMakers.stage_status. simpl.
      now rewrite lookup_insert_eq. }
    rewrite Nat.add_1_r. rewrite <- app_assoc.
    split; [reflexivity |]. split; [reflexivity |].
    split; [reflexivity |]. split; [reflexivity |]. split; [reflexivity |].
    split; [reflexivity |]. now left.
  - eexists. eexists.
    exists (Updates ∅ (Some (FindDecisionMakers.stage_status l "not_found"))).
    unfold bind at 1. rewrite update_lead_eq. cbv beta iota. unfold ret.
    cbn [fst snd store trace]. rewrite stage_says_done, Nat.add_0_r.
    split; [reflexivity |]. split; [reflexivity |].
    split; [reflexivity |]. split; [reflexivity |]. split; [reflexivity |].
    split; [reflexivity |]. right. now split.
Qed.

Lemma count_done_cons iu us :
  length (List.filter says_done (iu :: us))
  = ((if says_done iu then 1 else 0) + length (List.filter says_done us))%nat.
Proof. simpl. now destruct (says_done iu). Qed.

(** The loop over the leads submits one update for each lead, in the order
    of the batch, and counts the leads whose decision maker was found. *)
Lemma process_all_full e key self total ls :
  Forall (crawl_returns e key) ls ->
  forall p n w,
  exists w' t,
    FindDecisionMakers.process_all e key self total ls p n w
    = (w', inr (p + length ls,
                n + length (List.filter says_done (lead_updates t))))%nat
    /\ trace w' = trace w ++ t
    /\ completions t = []
    /\ Forall2 makers_update ls (lead_updates t).
Proof.
  induction 1 as [| l rest Hl _ IH]; intros p n w.
  - exists w, []. simpl. rewrite app_nil_r, !Nat.add_0_r.
    repeat split. constructor.
  - cbn [FindDecisionMakers.process_all length]. unfold bind at 1.
    destruct (process_lead_full e key l n w Hl)
      as (w1 & t1 & u & -> & T1 & P1 & C1 & L1 & U1).
    unfold bind at 1.
    destruct (S p mod 5 =? 0)%nat.
    + rewrite update_progress_eq.
      match goal with |- context [FindDecisionMakers.process_all _ _ _ _ _ _ _ ?w2] =>
        destruct (IH (S p) (n + if says_done (lead_id l, u) then 1 else 0)%nat w2)
          as (w' & t & Hh & Ht & Hc & Hu) end.
      exists w', (t1 ++ ProgressCall (job_id self) (S p) total
                          (FindDecisionMakers.found_counter
                             (n + if says_done (lead_id l, u) then 1 else 0)) :: t).
      rewrite Hh, Ht. cbn [trace]. rewrite T1.
      rewrite !lead_updates_app, !completions_app, C1, L1.
      simpl lead_updates. simpl completions. rewrite Hc.
      cbn [app]. rewrite count_done_cons.
      repeat split.
      * f_equal. f_equal. f_equal; lia.
      * now rewrite <- !app_assoc.
      * constructor; assumption.
    + unfold ret at 1. cbv beta iota.
      destruct (IH (S p) (n + if says_done (lead_id l, u) then 1 else 0)%nat w1)
        as (w' & t & Hh & Ht & Hc & Hu).
      exists w', (t1 ++ t).
      rewrite Hh, Ht, T1.
      rewrite !lead_updates_app, !completions_app, C1, L1, Hc.
      cbn [app]. rewrite count_done_cons.
      repeat split.
      * f_equal. f_equal. f_equal; lia.
      * now rewrite <- !app_assoc.
      * constructor; assumption.
Qed.

(** X16: a run of find_decision_makers on a batch on which no crawl raises
    submits exactly one update for each lead, in the order of the batch:
    the update records ["done"] or ["not_found"] for this stage beside the
    outcomes the lead had, and writes no other column when nothing was found;
    the count [found] of the result is the number of updates that record
    ["done"]. *)
Theorem makers_update_every_lead e self w key :
  has_key "openai" key w ->
  FindDecisionMakers.fetch_fault e = None ->
  let batch :=
    List.filter has_website (FindDecisionMakers.fetch self (store w)) in
  let N := length batch in
  batch <> [] ->
  Forall (crawl_returns e key) batch ->
  exists w' t,
    FindDecisionMakers.run e self w = (w', inr tt)
    /\ trace w' = trace w ++ t
    /\ Forall2 makers_update batch (lead_updates t)
    /\ completions t
       = [batch_result "found" N
            (length (List.filter says_done (lead_updates t))) N].
Proof.
  intros [Hk Hne] Hf batch N Hn Hc.
  unfold FindDecisionMakers.run. unfold bind at 1. rewrite get_api_key_eq, Hk.
  rewrite (key_present key Hne). unfold bind at 1. unfold get_store at 1.
  unfold bind at 1. rewrite Hf. unfold faulty at 1. unfold ret at 1.
  cbv beta iota. cbn [store].
  unfold bind at 1. unfold log at 1, emit at 1. cbv beta iota.
  fold batch. fold N. change (default "" (Some key)) with key.
  assert (length batch = N) as HN by reflexivity.
  clearbody N. clearbody batch.
  destruct batch as [| l0 ls]; [contradiction |].
  unfold bind at 1. unfold log at 1, emit at 1. cbv beta iota.
  unfold bind at 1. rewrite update_progress_eq.
  unfold bind at 1.
  match goal with |- context [FindDecisionMakers.process_all _ _ _ _ _ _ _ ?w2] =>
    destruct (process_all_full e key self N _ Hc 0 0 w2)
      as (w3 & t3 & Hh & Ht & Hco & Hu) end.
  rewrite Hh. cbn [fst snd]. rewrite HN. cbn [Nat.add].
  destruct (report_and_complete self N N
              (FindDecisionMakers.found_counter
                 (length (List.filter says_done (lead_updates t3))))
              (batch_result "found" N
                 (length (List.filter says_done (lead_updates t3))) N) w3)
    as (w' & Hr & Htr & _).
  exists w'. eexists. split; [exact Hr |]. split; [| split].
  - rewrite Htr, Ht. cbn [trace]. rewrite <- !app_assoc. reflexivity.
  - rewrite !lead_updates_app. simpl. rewrite app_nil_r. exact Hu.
  - rewrite !completions_app, !lead_updates_app, Hco. simpl.
    now rewrite app_nil_r.
Qed.

Lemma makers_update_every_lead_witness :
  exists w' t,
    FindDecisionMakers.run crawling_env makers_job (makers_world twelve_leads)
    = (w', inr tt)
    /\ completions t
       = [batch_result "found" 12
            (length (List.filter says_done (lead_updates t))) 12].
Proof.
  destruct (makers_update_every_lead crawling_env makers_job
              (makers_world twelve_leads) "secret"
              (makers_world_key twelve_leads) eq_refl
              ltac:(discriminate) twelve_crawls_return)
    as (w' & t & Hr & _ & _ & Hc).
  exists w', t. split; [exact Hr | exact Hc].
Defined.

Lemma process_lead_raises e key l n w msg :
  crawl_raises e key l msg ->
  FindDecisionMakers.process_lead e key l n w = (w, inl (Exception msg)).
Proof.
  unfold crawl_raises, FindDecisionMakers.process_lead.
  destruct (website_of l); try (intros ->; reflexivity).
  fold (request_url s). now intros ->.
Qed.

Lemma process_all_raises e key self total pre lk post msg :
  Forall (crawl_returns e key) pre ->
  crawl_raises e key lk msg ->
  forall p n w,
  exists w' t,
    FindDecisionMakers.process_all e key self total (pre ++ lk :: post) p n w
    = (w', inl (Exception msg))
    /\ trace w' = trace w ++ t
    /\ completions t = []
    /\ Forall2 makers_update pre (lead_updates t).
Proof.
  intros Hpre Hk. induction Hpre as [| l rest Hl _ IH]; intros p n w.
  - exists w, []. cbn [app FindDecisionMakers.process_all]. unfold bind at 1.
    rewrite (process_lead_raises e key lk n w msg Hk).
    rewrite app_nil_r. repeat split. constructor.
  - cbn [app FindDecisionMakers.process_all]. unfold bind at 1.
    destruct (process_lead_full e key l n w Hl)
      as (w1 & t1 & u & -> & T1 & P1 & C1 & L1 & U1).
    unfold bind at 1.
    destruct (S p mod 5 =? 0)%nat.
    + rewrite update_progress_eq.
      match goal with |- context [FindDecisionMakers.process_all _ _ _ _ _ _ _ ?w2] =>
        destruct (IH (S p) (n + if says_done (lead_id l, u) then 1 else 0)%nat w2)
          as (w' & t & Hh & Ht & Hc & Hu) end.
      exists w', (t1 ++ ProgressCall (job_id self) (S p) total
                          (FindDecisionMakers.found_counter
                             (n + if says_done (lead_id l, u) then 1 else 0)) :: t).
      rewrite Hh, Ht. cbn [trace]. rewrite T1.
      rewrite !lead_updates_app, !completions_app, C1, L1.
      simpl lead_updates. simpl completions. rewrite Hc.
      repeat split.
      * now rewrite <- !app_assoc.
      * constructor; assumption.
    + unfold ret at 1. cbv beta iota.
      destruct (IH (S p) (n + if says_done (lead_id l, u) then 1 else 0)%nat w1)
        as (w' & t & Hh & Ht & Hc & Hu).
      exists w', (t1 ++ t).
      rewrite Hh, Ht, T1.
      rewrite !lead_updates_app, !completions_app, C1, L1, Hc.
      repeat split.
      * now rewrite <- !app_assoc.
      * constructor; assumption.
Qed.

(** X17: find_decision_makers has no boundary around one lead: when the
    crawl for a lead of the batch raises an exception (its web site is not
    a string, or an exception escapes the crawl), the exception leaves the
    run; the leads before it have got their update, the leads after it get
    none, and the job is not completed by the run. *)
Theorem crawl_exception_aborts_batch e self w key pre lk post msg :
  has_key "openai" key w ->
  FindDecisionMakers.fetch_fault e = None ->
  List.filter has_website (FindDecisionMakers.fetch self (store w))
  = pre ++ lk :: post ->
  Forall (crawl_returns e key) pre ->
  crawl_raises e key lk msg ->
  exists w' t,
    FindDecisionMakers.run e self w = (w', inl (Exception msg))
    /\ trace w' = trace w ++ t
    /\ Forall2 makers_update pre (lead_updates t)
    /\ completions t = [].
Proof.
  intros [Hk Hne] Hf Hb Hc Hx.
  unfold FindDecisionMakers.run. unfold bind at 1. rewrite get_api_key_eq, Hk.
  rewrite (key_present key Hne). unfold bind at 1. unfold get_store at 1.
  unfold bind at 1. rewrite Hf. unfold faulty at 1. unfold ret at 1.
  cbv beta iota. cbn [store].
  unfold bind at 1. unfold log at 1, emit at 1. cbv beta iota.
  rewrite Hb. change (default "" (Some key)) with key.
  set (N := length (pre ++ lk :: post)).
  assert (match pre ++ lk :: post with
          | [] => None
          | _ :: _ => Some tt
          end = Some tt) as Hcons by (destruct pre; reflexivity).
  destruct (pre ++ lk :: post) as [| l0 ls] eqn:B; [discriminate |].
  rewrite <- B. clear Hcons.
  unfold bind at 1. unfold log at 1, emit at 1. cbv beta iota.
  unfold bind at 1. rewrite update_progress_eq.
  unfold bind at 1.
  match goal with |- context [FindDecisionMakers.process_all _ _ _ _ _ _ _ ?w2] =>
    destruct (process_all_raises e key self N pre lk post msg Hc Hx 0 0 w2)
      as (w3 & t3 & Hh & Ht & Hco & Hu) end.
  rewrite Hh. exists w3. eexists. split; [reflexivity |]. split; [| split].
  - rewrite Ht. cbn [trace]. rewrite <- !app_assoc. reflexivity.
  - rewrite !lead_updates_app. simpl. exact Hu.
  - rewrite !completions_app, Hco. reflexivity.
Qed.

Lemma crawl_exception_aborts_batch_witness :
  exists w' t,
    FindDecisionMakers.run crawling_env makers_job
      (makers_world [sample_lead "lead-1" "a.com"; odd_lead;
                     sample_lead "lead-3" "c.net"])
    = (w', inl (Exception "'int' object has no attribute 'startswith'"))
    /\ length (lead_updates t) = 1%nat.
Proof.
  destruct (crawl_exception_aborts_batch crawling_env makers_job
              (makers_world [sample_lead "lead-1" "a.com"; odd_lead;
                             sample_lead "lead-3" "c.net"])
              "secret" [sample_lead "lead-1" "a.com"] odd_lead
              [sample_lead "lead-3" "c.net"]
              "'int' object has no attribute 'startswith'"
              (makers_world_key _) eq_refl eq_refl)
    as (w' & t & Hr & _ & Hu & _).
  - repeat constructor. exists "a.com". eexists. split; reflexivity.
  - reflexivity.
  - exists w', t. split; [exact Hr |].
    apply Forall2_length in Hu. now rewrite <- Hu.
Defined.
